(** * Text preprocessing: tokenizer and vocabulary

    A shallow embedding of [text-preprocessing.ipynb]
    (chapter_recurrent-neural-networks): [read_time_machine], [tokenize],
    the class [Vocab], [count_corpus] and [load_corpus_time_machine],
    followed by the properties of the tokenizer/vocabulary pipeline.

    Conventions of the embedding.
    - A Python [str] is a [string]; each [ascii] of it stands for one
      character of the Python string.
    - A Python [int] is a [Z].
    - A Python [list] is a [list]; a [dict] whose iteration order is never
      observed ([token_to_idx]) is a [gmap]; the [collections.Counter],
      whose [items()] are read in insertion order, is an association list
      with pairwise distinct keys.
    - A call that may raise returns a [Py.result]; a call that prints
      returns the printed lines next to its value. *)

From Stdlib Require Import Ascii.
From stdpp Require Import base list gmap sets strings sorting.

#[local] Set Warnings "-register-all,-clear-no-such-hyp".

Open Scope string_scope.
Open Scope list_scope.
Open Scope Z_scope.

(** ** The Python primitives the notebook relies on *)

Module Py.

Inductive exn : Set := IndexError | TypeError.

Inductive result (A : Type) : Type :=
| Return (v : A)
| Raise (e : exn).
Arguments Return {A} v.
Arguments Raise {A} e.

Definition bind {A B} (r : result A) (k : A → result B) : result B :=
  match r with
  | Return v => k v
  | Raise e => Raise e
  end.

(** A list comprehension whose body may raise: the first exception
    aborts the whole comprehension. *)
Fixpoint mapM {A B} (f : A → result B) (l : list A) : result (list B) :=
  match l with
  | [] => Return []
  | x :: l' => bind (f x) (λ y, bind (mapM f l') (λ ys, Return (y :: ys)))
  end.

(** [l[i]]: a negative subscript counts from the end of the list; only
    a subscript that is still out of range after that raises. *)
Definition list_getitem {A} (l : list A) (i : Z) : result A :=
  let n := Z.of_nat (length l) in
  let j := if i <? 0 then i + n else i in
  if (j <? 0) || (n <=? j) then Raise IndexError
  else match l !! Z.to_nat j with
       | Some x => Return x
       | None => Raise IndexError
       end.

(** [l[:k]] *)
Definition list_slice_to {A} (l : list A) (k : Z) : list A :=
  let n := Z.of_nat (length l) in
  let stop := if k <? 0 then Z.max 0 (k + n) else Z.min k n in
  take (Z.to_nat stop) l.

(** [enumerate(l)], counting from [start] *)
Fixpoint enumerate_from {A} (start : Z) (l : list A) : list (Z * A) :=
  match l with
  | [] => []
  | x :: l' => (start, x) :: enumerate_from (start + 1) l'
  end.
Definition enumerate {A} (l : list A) : list (Z * A) := enumerate_from 0 l.

(** *** Strings *)

Definition code (c : ascii) : Z := Z.of_N (N_of_ascii c).

(** the character class [A-Za-z] *)
Definition is_alpha (c : ascii) : bool :=
  ((65 <=? code c) && (code c <=? 90)) || ((97 <=? code c) && (code c <=? 122)).

(** [str.isspace] on one character *)
Definition is_space (c : ascii) : bool :=
  ((9 <=? code c) && (code c <=? 13)) || ((28 <=? code c) && (code c <=? 32))
  || (code c =? 133) || (code c =? 160).

Definition lower_char (c : ascii) : ascii :=
  if (65 <=? code c) && (code c <=? 90)
  then ascii_of_N (Z.to_N (code c + 32)) else c.

(** [s.lower()], on the strings it is applied to: letters of [A-Za-z]
    and spaces *)
Fixpoint lower (s : string) : string :=
  match s with
  | EmptyString => EmptyString
  | String c r => String (lower_char c) (lower r)
  end.

Definition is_empty (s : string) : bool :=
  match s with EmptyString => true | String _ _ => false end.

Fixpoint lstrip (s : string) : string :=
  match s with
  | EmptyString => EmptyString
  | String c r => if is_space c then lstrip r else s
  end.

Fixpoint rstrip (s : string) : string :=
  match s with
  | EmptyString => EmptyString
  | String c r =>
      let r' := rstrip r in
      if is_space c && is_empty r' then EmptyString else String c r'
  end.

(** [s.strip()] *)
Definition strip (s : string) : string := rstrip (lstrip s).

(** [s.split()]: the maximal runs of characters that are not white
    space; [word] is the run read so far. *)
Fixpoint split_from (word : string) (s : string) : list string :=
  match s with
  | EmptyString => if is_empty word then [] else [word]
  | String c r =>
      if is_space c
      then (if is_empty word then split_from "" r else word :: split_from "" r)
      else split_from (word +:+ String c "") r
  end.
Definition split (s : string) : list string := split_from "" s.

(** [list(s)]: the characters of [s], each a string of length one *)
Fixpoint list_of_str (s : string) : list string :=
  match s with
  | EmptyString => []
  | String c r => String c "" :: list_of_str r
  end.

(** [re.sub('[^A-Za-z]+', ' ', s)]: every maximal run of characters
    outside [A-Za-z] becomes one space; [in_run] tells that the run the
    current character belongs to has already been replaced. *)
Fixpoint sub_non_alpha (in_run : bool) (s : string) : string :=
  match s with
  | EmptyString => EmptyString
  | String c r =>
      if is_alpha c then String c (sub_non_alpha false r)
      else if in_run then sub_non_alpha true r
      else String " " (sub_non_alpha true r)
  end.

(** *** [collections.Counter] *)

(** [c[t] += 1]: a key already present keeps its place, a new key goes
    to the end. *)
Fixpoint counter_incr (c : list (string * Z)) (t : string) : list (string * Z) :=
  match c with
  | [] => [(t, 1)]
  | (k, n) :: c' =>
      if String.eqb k t then (k, n + 1) :: c' else (k, n) :: counter_incr c' t
  end.

(** [collections.Counter(tokens)], as its [items()] *)
Definition Counter (tokens : list string) : list (string * Z) :=
  foldl counter_incr [] tokens.

(** *** [sorted(items, key=lambda x: x[1], reverse=True)] *)

(** [sorted] is stable, also with [reverse=True]: items of equal count
    keep their relative order. [x] was before every item of [l]. *)
Fixpoint insert_desc (x : string * Z) (l : list (string * Z)) : list (string * Z) :=
  match l with
  | [] => [x]
  | y :: l' => if x.2 <? y.2 then y :: insert_desc x l' else x :: y :: l'
  end.

Fixpoint sorted_by_count_desc (l : list (string * Z)) : list (string * Z) :=
  match l with
  | [] => []
  | x :: l' => insert_desc x (sorted_by_count_desc l')
  end.

End Py.

(** ** Reading the data set *)

(** [read_time_machine], from the lines [f.readlines()] returned. *)
Definition read_time_machine (raw_lines : list string) : list string :=
  map (λ line, Py.lower (Py.strip (Py.sub_non_alpha false line))) raw_lines.

(** ** Tokenization *)

(** [tokenize(lines, token)]: the lines printed, and the value returned
    ([None] where the function falls off its end). *)
Definition tokenize (lines : list string) (token : string)
  : list string * option (list (list string)) :=
  if String.eqb token "word" then ([], Some (map Py.split lines))
  else if String.eqb token "char" then ([], Some (map Py.list_of_str lines))
  else (["错误：未知词元类型：" +:+ token], None).

(** The call [tokenize(lines, token)] with its outcome: the function has
    no [raise], so on each of its three paths the call returns, with the
    value of [tokenize]. *)
Definition tokenize_call (lines : list string) (token : string)
  : list string * Py.result (option (list (list string))) :=
  let '(printed, value) := tokenize lines token in
  (printed, Py.Return value).

(** ** The vocabulary *)

(** The [tokens] argument of [Vocab] and [count_corpus]: "a 1D list or a
    2D list" of tokens. *)
Inductive tokens_arg : Type :=
| Tokens1D (tokens : list string)
| Tokens2D (tokens : list (list string)).

(** [count_corpus(tokens)] *)
Definition count_corpus (tokens : tokens_arg) : list (string * Z) :=
  let tokens :=
    match tokens with
    | Tokens1D tokens =>
        (* [tokens[0]] is a [str]: only the empty list is flattened *)
        if bool_decide (length tokens = 0%nat) then concat [] else tokens
    | Tokens2D tokens =>
        (* [len(tokens) == 0], or [tokens[0]] is a list *)
        concat tokens
    end in
  Py.Counter tokens.

(** A token, or a (nested) list of tokens: what [Vocab.__getitem__] takes
    and [Vocab.to_tokens] returns. *)
Inductive token_or_list : Type :=
| Token (token : string)
| TokenList (tokens : list token_or_list).

(** An index, or a (nested) list of indices: what [Vocab.__getitem__]
    returns and [Vocab.to_tokens] takes. *)
Inductive index_or_list : Type :=
| Index (index : Z)
| IndexList (indices : list index_or_list).

Module Vocab.

Record t : Type := mk {
  _token_freqs : list (string * Z);
  idx_to_token : list string;
  token_to_idx : gmap string Z
}.

(** [{token: idx for idx, token in enumerate(idx_to_token)}]: a token
    met again takes the later index. *)
Definition dict_of_enumerate (idx_to_token : list string) : gmap string Z :=
  foldl (λ d '(idx, token), <[token := idx]> d) ∅ (Py.enumerate idx_to_token).

(** The [for token, freq in self._token_freqs] loop of [__init__], on
    the two fields it updates. *)
Fixpoint assign (min_freq : Z) (token_freqs : list (string * Z))
    (idx_to_token : list string) (token_to_idx : gmap string Z)
  : list string * gmap string Z :=
  match token_freqs with
  | [] => (idx_to_token, token_to_idx)
  | (token, freq) :: rest =>
      if freq <? min_freq then (idx_to_token, token_to_idx) (* break *)
      else
        match token_to_idx !! token with
        | None =>
            let idx_to_token := idx_to_token ++ [token] in
            assign min_freq rest idx_to_token
              (<[token := Z.of_nat (length idx_to_token) - 1]> token_to_idx)
        | Some _ => assign min_freq rest idx_to_token token_to_idx
        end
  end.

(** [Vocab(tokens, min_freq, reserved_tokens)]; an omitted [tokens] or
    [reserved_tokens] is [None]. *)
Definition __init__ (tokens : option tokens_arg) (min_freq : Z)
    (reserved_tokens : option (list string)) : t :=
  let tokens := default (Tokens1D []) tokens in
  let reserved_tokens := default [] reserved_tokens in
  let counter := count_corpus tokens in
  let token_freqs := Py.sorted_by_count_desc counter in
  let idx_to_token := "<unk>" :: reserved_tokens in
  let token_to_idx := dict_of_enumerate idx_to_token in
  let '(idx_to_token, token_to_idx) :=
    assign min_freq token_freqs idx_to_token token_to_idx in
  mk token_freqs idx_to_token token_to_idx.

Definition __len__ (self : t) : Z := Z.of_nat (length (idx_to_token self)).

Definition unk (self : t) : Z := 0.

Definition token_freqs (self : t) : list (string * Z) := _token_freqs self.

(** [self.token_to_idx.get(token, self.unk)] *)
Definition get (self : t) (token : string) : Z :=
  default (unk self) (token_to_idx self !! token).

Fixpoint __getitem__ (self : t) (tokens : token_or_list) : index_or_list :=
  match tokens with
  | Token token => Index (get self token)
  | TokenList tokens => IndexList (map (__getitem__ self) tokens)
  end.

(** [self.idx_to_token[index]]; a list is not a subscript. *)
Definition at_index (self : t) (index : index_or_list) : Py.result string :=
  match index with
  | Index i => Py.list_getitem (idx_to_token self) i
  | IndexList _ => Py.Raise Py.TypeError
  end.

Definition to_tokens (self : t) (indices : index_or_list)
  : Py.result token_or_list :=
  match indices with
  | Index _ => Py.bind (at_index self indices) (λ token, Py.Return (Token token))
  | IndexList indices =>
      Py.bind (Py.mapM (at_index self) indices)
        (λ tokens, Py.Return (TokenList (map Token tokens)))
  end.

End Vocab.

(** ** The whole pipeline *)

(** [load_corpus_time_machine(max_tokens)], from the lines of the data
    set. Nothing is printed on this path. *)
Definition load_corpus_time_machine (raw_lines : list string) (max_tokens : Z)
  : Py.result (list Z * Vocab.t) :=
  let lines := read_time_machine raw_lines in
  let tokens := (tokenize lines "char").2 in
  let vocab := Vocab.__init__ (Tokens2D <$> tokens) 0 None in
  match tokens with
  | None => Py.Raise Py.TypeError (* [for line in None] *)
  | Some tokens =>
      let corpus := map (Vocab.get vocab) (concat tokens) in
      let corpus :=
        if 0 <? max_tokens then Py.list_slice_to corpus max_tokens else corpus in
      Py.Return (corpus, vocab)
  end.

(** ** Specification vocabulary *)

(** The token collection a [tokens] argument denotes, in reading order. *)
Definition corpus_of (tokens : option tokens_arg) : list string :=
  match tokens with
  | None => []
  | Some (Tokens1D tokens) => tokens
  | Some (Tokens2D tokens) => concat tokens
  end.

(** The number of occurrences of [t] in [l]. *)
Definition frequency (t : string) (l : list string) : Z :=
  Z.of_nat (length (filter (λ x, x = t) l)).

(** The distinct tokens of a collection. *)
Definition distinct_tokens (corpus : list string) : list string :=
  remove_dups corpus.

(** [c[t]] on a counter: the count stored for [t], or 0. *)
Fixpoint counter_get (c : list (string * Z)) (t : string) : Z :=
  match c with
  | [] => 0
  | (k, n) :: c' => if String.eqb k t then n else counter_get c' t
  end.

(** [x] is ranked no lower than [y]. *)
Definition count_ge (x y : string * Z) : Prop := y.2 ≤ x.2.

(** [token_to_idx] knows exactly the tokens of [idx_to_token], and
    sends each to a position where [idx_to_token] holds it. *)
Definition index_ok (idx_to_token : list string) (token_to_idx : gmap string Z)
  : Prop :=
  (∀ t, t ∈ idx_to_token ↔ is_Some (token_to_idx !! t))
  ∧ (∀ t i, token_to_idx !! t = Some i →
            0 ≤ i ∧ idx_to_token !! Z.to_nat i = Some t).

(** The entries the loop visits before its [break]: the longest prefix
    of the ranked list whose counts all reach [min_freq]. *)
Fixpoint ranked_prefix (min_freq : Z) (freqs : list (string * Z))
  : list (string * Z) :=
  match freqs with
  | [] => []
  | p :: rest => if p.2 <? min_freq then [] else p :: ranked_prefix min_freq rest
  end.

(** The vocabulary of the scenario of the specification. *)
Definition scenario_vocab : Vocab.t :=
  Vocab.__init__ (Some (Tokens1D ["a"; "b"; "a"; "c"; "a"; "b"])) 0 None.

(** ** Lines and words *)

Definition is_lower (c : ascii) : bool :=
  (97 <=? Py.code c) && (Py.code c <=? 122).

(** Every character of [s] passes the test [P]. *)
Fixpoint all_chars (P : ascii → bool) (s : string) : bool :=
  match s with
  | EmptyString => true
  | String c r => P c && all_chars P r
  end.

(** A word: one lowercase letter or more, and nothing else. *)
Definition lower_word (w : string) : Prop :=
  w ≠ "" ∧ all_chars is_lower w = true.

Definition no_space (c : ascii) : bool := negb (Py.is_space c).

(** [s] with its white space removed. *)
Fixpoint without_space (s : string) : string :=
  match s with
  | EmptyString => EmptyString
  | String c r => if Py.is_space c then without_space r else String c (without_space r)
  end.

(** What may follow in a line of words: a space only after a letter (not
    at the start, [after_space], nor after another space), a letter of
    the class [letter] anywhere, and the end only after a letter. *)
Fixpoint spaced (letter : ascii → bool) (after_space : bool) (s : string) : bool :=
  match s with
  | EmptyString => negb after_space
  | String c r =>
      if Ascii.eqb c " " then negb after_space && spaced letter true r
      else letter c && spaced letter false r
  end.

(** A normalized line: empty, or lowercase words separated by single
    spaces. *)
Definition normal_line (s : string) : Prop :=
  s = "" ∨ spaced is_lower true s = true.

(** The same without the condition on the end: the text may end with a
    space. *)
Fixpoint single_spaced (letter : ascii → bool) (after_space : bool) (s : string)
  : bool :=
  match s with
  | EmptyString => true
  | String c r =>
      if Ascii.eqb c " " then negb after_space && single_spaced letter true r
      else letter c && single_spaced letter false r
  end.

(** ** Counting *)

(** The distinct tokens of a collection, each at the place of its first
    occurrence. *)
Fixpoint first_occurrences (l : list string) : list string :=
  match l with
  | [] => []
  | x :: l' => x :: filter (λ y, y ≠ x) (first_occurrences l')
  end.

(** The total of the counts of a counter. *)
Definition total (c : list (string * Z)) : Z := foldr Z.add 0 c.*2.

(** ** The characters of the data set *)

(** A lowercase letter or the space. *)
Definition is_text_char (c : ascii) : bool := is_lower c || Ascii.eqb c " ".

(** The 27 character tokens a normalized line can hold. *)
Definition alphabet : list string :=
  Py.list_of_str "abcdefghijklmnopqrstuvwxyz ".

(** The character tokens of the data set, in reading order. *)
Definition text_chars (raw_lines : list string) : list string :=
  concat (map Py.list_of_str (read_time_machine raw_lines)).

(** ** Multi-head attention: the reshaping of queries, keys and values *)

(** The tensor operations [transpose_qkv] and [transpose_output] call. A
    tensor is its shape and its elements in row-major order; the
    operations move the elements and never look at them, so the element
    type is left open. *)
Module Torch.

Inductive error : Set := RuntimeError | IndexError.

(** [inl e]: the call raised [e]; [inr v]: it returned [v]. *)
Definition result (A : Type) : Type := error + A.

Definition bind {A B} (r : result A) (k : A → result B) : result B :=
  match r with
  | inl e => inl e
  | inr v => k v
  end.

Record tensor (A : Type) : Type := mk {
  shape : list nat;
  data : list A
}.
Arguments mk {A} shape data.
Arguments shape {A} t.
Arguments data {A} t.

(** The number of elements a shape holds. *)
Definition numel (shape : list nat) : nat := foldr Nat.mul 1%nat shape.

(** [X.shape[i]] *)
Definition size {A} (X : tensor A) (i : nat) : result nat :=
  match shape X !! i with
  | Some n => inr n
  | None => inl IndexError
  end.

(** The sizes a [reshape] to [dims] gives a tensor of [n] elements: at
    most one dimension is -1 and is inferred from the others, which must
    not be negative and whose product must fit [n]. A dimension cannot
    be inferred when the product of the others is 0. *)
Definition infer_size (dims : list Z) (n : nat) : result (list nat) :=
  if bool_decide (Exists (λ d, d < -1) dims) then inl RuntimeError
  else if Nat.ltb 1 (length (filter (λ d, d = -1) dims)) then inl RuntimeError
  else
    let infer := bool_decide (-1 ∈ dims) in
    let newsize := foldr Z.mul 1 (filter (λ d, d ≠ -1) dims) in
    let n := Z.of_nat n in
    if (n =? newsize) || (infer && (0 <? newsize) && (n mod newsize =? 0)) then
      if infer && (newsize =? 0) then inl RuntimeError
      else inr (map (λ d, Z.to_nat (if d =? -1 then n / newsize else d)) dims)
    else inl RuntimeError.

(** [X.reshape(dims)]: the same elements in the same order, under the
    new shape. *)
Definition reshape {A} (X : tensor A) (dims : list Z) : result (tensor A) :=
  bind (infer_size dims (numel (shape X))) (λ shape, inr (mk shape (data X))).

(** Where the element at row-major position [p] of a tensor of shape
    [(a, c, b, d)] sits in the tensor of shape [(a, b, c, d)] it was
    permuted from: [(i, k, j, l)] comes from [(i, j, k, l)]. *)
Definition source_0213 (b c d p : nat) : nat :=
  let l := (p mod d)%nat in
  let p := (p / d)%nat in
  let j := (p mod b)%nat in
  let p := (p / b)%nat in
  let k := (p mod c)%nat in
  let i := (p / c)%nat in
  (((i * b + j) * c + k) * d + l)%nat.

(** The elements of a tensor of shape [(a, b, c, d)] in the row-major
    order of its permutation to [(a, c, b, d)]. *)
Definition gather_0213 {A} (b c d : nat) (data : list A) : list A :=
  match data with
  | [] => []
  | x :: _ => map (λ p, nth (source_0213 b c d p) data x) (seq 0 (length data))
  end.

(** [X.permute(0, 2, 1, 3)], for a tensor of four dimensions *)
Definition permute_0213 {A} (X : tensor A) : result (tensor A) :=
  match shape X with
  | [a; b; c; d] => inr (mk [a; c; b; d] (gather_0213 b c d (data X)))
  | _ => inl RuntimeError
  end.

End Torch.

(** [transpose_qkv(X, num_heads)] *)
Definition transpose_qkv {A} (X : Torch.tensor A) (num_heads : Z)
  : Torch.result (Torch.tensor A) :=
  Torch.bind (Torch.size X 0) (λ s0,
  Torch.bind (Torch.size X 1) (λ s1,
  Torch.bind (Torch.reshape X [Z.of_nat s0; Z.of_nat s1; num_heads; -1]) (λ X,
  Torch.bind (Torch.permute_0213 X) (λ X,
  Torch.bind (Torch.size X 2) (λ s2,
  Torch.bind (Torch.size X 3) (λ s3,
  Torch.reshape X [-1; Z.of_nat s2; Z.of_nat s3])))))).

(** [transpose_output(X, num_heads)] *)
Definition transpose_output {A} (X : Torch.tensor A) (num_heads : Z)
  : Torch.result (Torch.tensor A) :=
  Torch.bind (Torch.size X 1) (λ s1,
  Torch.bind (Torch.size X 2) (λ s2,
  Torch.bind (Torch.reshape X [-1; num_heads; Z.of_nat s1; Z.of_nat s2]) (λ X,
  Torch.bind (Torch.permute_0213 X) (λ X,
  Torch.bind (Torch.size X 0) (λ s0,
  Torch.bind (Torch.size X 1) (λ s1,
  Torch.reshape X [Z.of_nat s0; Z.of_nat s1; -1])))))).

(** A tensor holds as many elements as its shape says. *)
Definition tensor_ok {A} (X : Torch.tensor A) : Prop :=
  length (Torch.data X) = Torch.numel (Torch.shape X).

(** ** Runs of a line *)

(** A run of a line ends here: at the end of the line, or before a
    white-space character. *)
Definition run_ends (r : string) : bool :=
  match r with
  | EmptyString => true
  | String c _ => Py.is_space c
  end.

(** A line and its maximal runs without white space, from left to right:
    white space only and no run; or white space, then a non-empty run
    without white space that ends at the end of the line or before a
    white-space character, then the rest of the line with its runs. *)
Inductive word_split : string → list string → Prop :=
| word_split_blank (gap : string) :
    all_chars Py.is_space gap = true → word_split gap []
| word_split_run (gap run rest : string) (runs : list string) :
    all_chars Py.is_space gap = true →
    run ≠ "" → all_chars no_space run = true →
    run_ends rest = true →
    word_split rest runs →
    word_split (gap +:+ run +:+ rest) (run :: runs).

(** ** The scenarios of the specification *)

Example tokenize_word_scenario :
  tokenize ["the time machine by h g wells"; ""; "twinkled and his face"] "word"
  = ([], Some [["the"; "time"; "machine"; "by"; "h"; "g"; "wells"]; [];
               ["twinkled"; "and"; "his"; "face"]]).
Proof. reflexivity. Qed.

Example read_time_machine_line :
  read_time_machine ["The Time Machine, by H. G. Wells [1898]" +:+ String "010" ""]
  = ["the time machine by h g wells"].
Proof. reflexivity. Qed.

Example scenario_idx : Vocab.idx_to_token scenario_vocab = ["<unk>"; "a"; "b"; "c"].
Proof. vm_compute. reflexivity. Qed.

Example scenario_a : Vocab.get scenario_vocab "a" = 1.
Proof. vm_compute. reflexivity. Qed.

(** ** Facts about the counter *)

Section counter.

Lemma counter_incr_keys c t :
  (Py.counter_incr c t).*1 = if decide (t ∈ c.*1) then c.*1 else c.*1 ++ [t].
Proof.
  induction c as [|[k n] c IH]; [done|].
  cbn [Py.counter_incr]. rewrite (fmap_cons fst (k, n)). cbn [fst].
  destruct (String.eqb_spec k t) as [->|Hne].
  - rewrite fmap_cons, decide_True by set_solver. done.
  - rewrite fmap_cons, IH. cbn [fst]. destruct (decide (t ∈ c.*1)).
    + rewrite decide_True by set_solver. done.
    + rewrite decide_False by set_solver. done.
Qed.

Lemma counter_incr_get c t k :
  counter_get (Py.counter_incr c t) k
  = counter_get c k + (if decide (k = t) then 1 else 0).
Proof.
  induction c as [|[k' n] c IH]; simpl.
  - destruct (String.eqb_spec t k); case_decide; naive_solver.
  - destruct (String.eqb_spec k' t) as [->|Hne]; simpl.
    + destruct (String.eqb_spec t k); case_decide; naive_solver lia.
    + destruct (String.eqb_spec k' k); [|done].
      case_decide; [congruence | lia].
Qed.

Lemma counter_incr_NoDup c t : NoDup c.*1 → NoDup (Py.counter_incr c t).*1.
Proof.
  intros Hc. rewrite counter_incr_keys. case_decide; [done|].
  apply NoDup_app. split_and!; [done | | apply NoDup_singleton].
  intros x Hx ->%list_elem_of_singleton. done.
Qed.

Lemma frequency_cons t x l :
  frequency t (x :: l) = (if decide (t = x) then 1 else 0) + frequency t l.
Proof.
  unfold frequency. rewrite filter_cons.
  destruct (decide (x = t)); case_decide; simpl; try congruence; lia.
Qed.

Lemma frequency_nonneg t l : 0 ≤ frequency t l.
Proof. unfold frequency. lia. Qed.

Lemma frequency_pos t l : t ∈ l ↔ 1 ≤ frequency t l.
Proof.
  induction l as [|x l IH].
  - unfold frequency; simpl. split; [by intros ?%not_elem_of_nil | lia].
  - rewrite frequency_cons, elem_of_cons. pose proof (frequency_nonneg t l).
    case_decide; [naive_solver lia|]. rewrite IH. naive_solver lia.
Qed.

Lemma foldl_counter_incr acc l :
  NoDup acc.*1 →
  let c := foldl Py.counter_incr acc l in
  NoDup c.*1
  ∧ (∀ k, k ∈ c.*1 ↔ k ∈ acc.*1 ∨ k ∈ l)
  ∧ (∀ k, counter_get c k = counter_get acc k + frequency k l).
Proof.
  revert acc. induction l as [|x l IH]; intros acc Hnd; simpl.
  - split_and!; [done | set_solver |].
    intros k. unfold frequency. simpl. lia.
  - destruct (IH (Py.counter_incr acc x)) as (H1 & H2 & H3);
      [by apply counter_incr_NoDup|].
    split_and!; [done | |].
    + intros k. rewrite H2, counter_incr_keys.
      case_decide; set_solver.
    + intros k. rewrite H3, counter_incr_get, frequency_cons. lia.
Qed.

Lemma counter_get_elem c k n : NoDup c.*1 → (k, n) ∈ c → counter_get c k = n.
Proof.
  induction c as [|[k' n'] c IH]; simpl; intros Hnd Hin.
  - by apply not_elem_of_nil in Hin.
  - apply NoDup_cons in Hnd as [Hk' Hnd].
    apply elem_of_cons in Hin as [[= -> ->]|Hin].
    + by rewrite String.eqb_refl.
    + destruct (String.eqb_spec k' k) as [->|]; [|by apply IH].
      exfalso. apply Hk'. apply list_elem_of_fmap. by exists (k, n).
Qed.

(** The counter holds each distinct token once, with its frequency. *)
Lemma Counter_spec l :
  NoDup (Py.Counter l).*1
  ∧ (∀ k, k ∈ (Py.Counter l).*1 ↔ k ∈ l)
  ∧ (∀ k n, (k, n) ∈ Py.Counter l → n = frequency k l).
Proof.
  destruct (foldl_counter_incr [] l) as (H1 & H2 & H3); [constructor|].
  split_and!; [done | |].
  - intros k. rewrite H2. set_solver.
  - intros k n Hin. rewrite <- (counter_get_elem _ _ _ H1 Hin).
    rewrite H3. simpl. lia.
Qed.

End counter.

(** ** Facts about the sort *)

Section sorting.

Lemma insert_desc_perm x l : Py.insert_desc x l ≡ₚ x :: l.
Proof.
  induction l as [|y l IH]; simpl; [done|].
  destruct (x.2 <? y.2); [|done].
  rewrite IH. apply perm_swap.
Qed.

Lemma sorted_by_count_desc_perm l : Py.sorted_by_count_desc l ≡ₚ l.
Proof.
  induction l as [|x l IH]; simpl; [done|].
  by rewrite insert_desc_perm, IH.
Qed.

Lemma insert_desc_sorted x l :
  StronglySorted count_ge l → StronglySorted count_ge (Py.insert_desc x l).
Proof.
  induction 1 as [|y l Hl IH Hy]; simpl.
  - repeat constructor.
  - destruct (Z.ltb_spec x.2 y.2) as [Hlt|Hge].
    + constructor; [done|]. rewrite insert_desc_perm.
      constructor; [unfold count_ge; lia | done].
    + constructor; [by constructor|].
      constructor; [done|].
      eapply Forall_impl; [exact Hy|]. unfold count_ge. intros z ?. lia.
Qed.

Lemma sorted_by_count_desc_sorted l :
  StronglySorted count_ge (Py.sorted_by_count_desc l).
Proof.
  induction l as [|x l IH]; simpl; [constructor|].
  by apply insert_desc_sorted.
Qed.

(** The sort is stable: items of equal count keep their order. *)
Lemma insert_desc_stable n x l :
  filter (λ p, p.2 = n) (Py.insert_desc x l) = filter (λ p, p.2 = n) (x :: l).
Proof.
  induction l as [|y l IH]; simpl; [done|].
  destruct (Z.ltb_spec x.2 y.2) as [Hlt|Hge]; [|done].
  rewrite (filter_cons _ y), IH, !filter_cons.
  repeat case_decide; try done; lia.
Qed.

Lemma sorted_by_count_desc_stable n l :
  filter (λ p, p.2 = n) (Py.sorted_by_count_desc l) = filter (λ p, p.2 = n) l.
Proof.
  induction l as [|x l IH]; simpl; [done|].
  by rewrite insert_desc_stable, !filter_cons, IH.
Qed.

Lemma filter_none {A} (P : A → Prop) `{!∀ x, Decision (P x)} (l : list A) :
  Forall (λ x, ¬ P x) l → filter P l = [].
Proof.
  induction 1 as [|x l Hx _ IH]; [done|]. by rewrite filter_cons_False.
Qed.

(** In a list of descending counts, the items that reach a threshold
    form a prefix: nothing after the first item below it reaches it. *)
Lemma sorted_below_threshold min_freq x l :
  StronglySorted count_ge (x :: l) → x.2 < min_freq →
  filter (λ p, min_freq ≤ p.2) (x :: l) = [].
Proof.
  intros [Hl Hx]%StronglySorted_inv Hlt.
  apply filter_none. constructor; [lia|].
  eapply Forall_impl; [exact Hx|]. unfold count_ge. intros z ?. lia.
Qed.

End sorting.

(** The ranked frequency list of a token collection. *)
Lemma count_corpus_flat tokens :
  count_corpus tokens = Py.Counter (corpus_of (Some tokens)).
Proof.
  destruct tokens as [[|x l]|l]; done.
Qed.

Lemma init_token_freqs tokens min_freq reserved :
  Vocab._token_freqs (Vocab.__init__ tokens min_freq reserved)
  = Py.sorted_by_count_desc (Py.Counter (corpus_of tokens)).
Proof.
  unfold Vocab.__init__.
  destruct (Vocab.assign _ _ _ _) as [i2t t2i]. simpl.
  destruct tokens as [tokens|]; simpl; [|done].
  by rewrite count_corpus_flat.
Qed.

(** The ranked frequency list: descending counts, one entry per distinct
    token of the collection, each with its frequency. *)
Lemma token_freqs_spec tokens min_freq reserved :
  let freqs := Vocab._token_freqs (Vocab.__init__ tokens min_freq reserved) in
  let corpus := corpus_of tokens in
  StronglySorted count_ge freqs
  ∧ NoDup freqs.*1
  ∧ (∀ k, k ∈ freqs.*1 ↔ k ∈ corpus)
  ∧ (∀ k n, (k, n) ∈ freqs → n = frequency k corpus).
Proof.
  intros freqs corpus. subst freqs. rewrite init_token_freqs. fold corpus.
  destruct (Counter_spec corpus) as (Hnd & Hmem & Hval).
  pose proof (sorted_by_count_desc_perm (Py.Counter corpus)) as Hperm.
  split_and!.
  - apply sorted_by_count_desc_sorted.
  - by rewrite Hperm.
  - intros k. by rewrite Hperm.
  - intros k n. rewrite Hperm. apply Hval.
Qed.

(** ** The loop invariant of [Vocab.__init__] *)

Section index.

Lemma index_ok_empty : index_ok [] ∅.
Proof.
  split.
  - intros t. rewrite lookup_empty, is_Some_alt. set_solver.
  - intros t i. by rewrite lookup_empty.
Qed.

(** Appending a token and recording its position keeps the invariant,
    whether or not the token was known before. *)
Lemma index_ok_snoc i2t t2i t :
  index_ok i2t t2i →
  index_ok (i2t ++ [t]) (<[t := Z.of_nat (length i2t)]> t2i).
Proof.
  intros [Hdom Hval]. split.
  - intros t'. rewrite elem_of_app, list_elem_of_singleton, Hdom.
    rewrite lookup_insert_is_Some. destruct (decide (t = t')); naive_solver.
  - intros t' i. rewrite lookup_insert. case_decide as Heq.
    + intros [= <-]. subst t'. split; [lia|].
      rewrite Nat2Z.id. by apply list_lookup_middle.
    + intros [? Hi]%Hval. split; [done|].
      by apply lookup_app_l_Some.
Qed.

(** The same, as the loop writes it: [len(idx_to_token) - 1] after the
    append. *)
Lemma index_ok_step i2t t2i t :
  index_ok i2t t2i →
  index_ok (i2t ++ [t]) (<[t := Z.of_nat (length (i2t ++ [t])) - 1]> t2i).
Proof.
  intros Hok. rewrite length_app. simpl.
  replace (Z.of_nat (length i2t + 1) - 1) with (Z.of_nat (length i2t)) by lia.
  by apply index_ok_snoc.
Qed.

Lemma enumerate_from_ok pre l d :
  index_ok pre d →
  index_ok (pre ++ l)
    (foldl (λ d '(idx, token), <[token := idx]> d) d
           (Py.enumerate_from (Z.of_nat (length pre)) l)).
Proof.
  revert pre d. induction l as [|x l IH]; intros pre d Hok; simpl.
  - by rewrite app_nil_r.
  - rewrite (assoc_L (++) pre [x] l : pre ++ x :: l = (pre ++ [x]) ++ l).
    replace (Z.of_nat (length pre) + 1) with (Z.of_nat (length (pre ++ [x])))
      by (rewrite length_app; simpl; lia).
    apply IH. by apply index_ok_snoc.
Qed.

Lemma dict_of_enumerate_ok l : index_ok l (Vocab.dict_of_enumerate l).
Proof. apply (enumerate_from_ok [] l ∅), index_ok_empty. Qed.

Lemma assign_ok min_freq freqs i2t t2i :
  index_ok i2t t2i →
  index_ok (Vocab.assign min_freq freqs i2t t2i).1
           (Vocab.assign min_freq freqs i2t t2i).2.
Proof.
  revert i2t t2i. induction freqs as [|[token freq] rest IH];
    intros i2t t2i Hok; simpl; [done|].
  destruct (freq <? min_freq); [done|].
  destruct (t2i !! token) eqn:Hlk; [by apply IH|].
  by apply IH, index_ok_step.
Qed.

End index.

(** ** What the loop appends *)

Section assigned.

Lemma filter_ext_elem {A} (P Q : A → Prop)
    `{!∀ x, Decision (P x)} `{!∀ x, Decision (Q x)} (l : list A) :
  (∀ x, x ∈ l → P x ↔ Q x) → filter P l = filter Q l.
Proof.
  induction l as [|x l IH]; intros Hext; [done|].
  rewrite !filter_cons, IH by (intros; apply Hext; set_solver).
  destruct (decide (P x)), (decide (Q x)); try done;
    exfalso; specialize (Hext x); set_solver.
Qed.

(** On a descending list the prefix cut at the first count below the
    threshold holds every entry that reaches the threshold. *)
Lemma ranked_prefix_filter min_freq freqs :
  StronglySorted count_ge freqs →
  ranked_prefix min_freq freqs = filter (λ p, min_freq ≤ p.2) freqs.
Proof.
  induction freqs as [|p rest IH]; intros Hs; simpl; [done|].
  destruct (Z.ltb_spec p.2 min_freq) as [Hlt|Hge].
  - symmetry. by apply sorted_below_threshold.
  - apply StronglySorted_inv in Hs as [Hs _].
    by rewrite filter_cons_True, IH.
Qed.

Lemma ranked_prefix_keys_sub min_freq freqs k :
  k ∈ (ranked_prefix min_freq freqs).*1 → k ∈ freqs.*1.
Proof.
  induction freqs as [|p rest IH]; simpl; [done|].
  destruct (p.2 <? min_freq); [by intros ?%not_elem_of_nil|].
  rewrite !fmap_cons, !elem_of_cons. naive_solver.
Qed.

(** The loop appends, in ranked order, the tokens of the prefix that
    are not yet in the vocabulary. *)
Lemma assign_idx_to_token min_freq freqs i2t t2i :
  index_ok i2t t2i → NoDup freqs.*1 →
  (Vocab.assign min_freq freqs i2t t2i).1
  = i2t ++ filter (λ t, t ∉ i2t) (ranked_prefix min_freq freqs).*1.
Proof.
  revert i2t t2i. induction freqs as [|[token freq] rest IH];
    intros i2t t2i Hok Hnd; simpl.
  - by rewrite app_nil_r.
  - apply NoDup_cons in Hnd as [Hfresh Hnd].
    destruct (freq <? min_freq); simpl; [by rewrite app_nil_r|].
    destruct (t2i !! token) eqn:Hlk.
    + rewrite filter_cons_False; [by apply IH|].
      intros Hout. apply Hout, Hok. by rewrite Hlk.
    + assert (token ∉ i2t) as Hout.
      { intros Hin%Hok. rewrite Hlk in Hin. by destruct Hin. }
      rewrite filter_cons_True by done.
      rewrite IH; [|by apply index_ok_step|done].
      rewrite <- (assoc_L (++)). simpl. do 2 f_equal.
      apply filter_ext_elem. intros t Ht.
      rewrite not_elem_of_app, list_elem_of_singleton.
      apply ranked_prefix_keys_sub in Ht. naive_solver.
Qed.

End assigned.

(** ** The constructed vocabulary *)

Section constructed.

Variables (tokens : option tokens_arg) (min_freq : Z)
          (reserved_tokens : option (list string)).

Let vocab := Vocab.__init__ tokens min_freq reserved_tokens.
Let corpus := corpus_of tokens.
Let base := "<unk>" :: default [] reserved_tokens.

Lemma init_unfold :
  vocab =
  let freqs := Py.sorted_by_count_desc (Py.Counter corpus) in
  let r := Vocab.assign min_freq freqs base (Vocab.dict_of_enumerate base) in
  Vocab.mk freqs r.1 r.2.
Proof.
  subst vocab corpus base. unfold Vocab.__init__.
  replace (count_corpus (default (Tokens1D []) tokens))
    with (Py.Counter (corpus_of tokens))
    by (destruct tokens; simpl; by rewrite ?count_corpus_flat).
  by destruct (Vocab.assign _ _ _ _).
Qed.

Lemma init_index_ok :
  index_ok (Vocab.idx_to_token vocab) (Vocab.token_to_idx vocab).
Proof. rewrite init_unfold. simpl. apply assign_ok, dict_of_enumerate_ok. Qed.

Lemma init_idx_to_token :
  Vocab.idx_to_token vocab
  = base ++ filter (λ t, t ∉ base)
                   (ranked_prefix min_freq (Vocab._token_freqs vocab)).*1.
Proof.
  pose proof (token_freqs_spec tokens min_freq reserved_tokens) as (_ & Hnd & _).
  fold vocab in Hnd. revert Hnd. rewrite init_unfold. simpl. intros Hnd.
  apply assign_idx_to_token; [apply dict_of_enumerate_ok | done].
Qed.

(** The tokens of the ranked prefix are the distinct tokens of the
    collection whose frequency reaches [min_freq]. *)
Lemma ranked_prefix_keys :
  (ranked_prefix min_freq (Vocab._token_freqs vocab)).*1
  = filter (λ t, min_freq ≤ frequency t corpus) (Vocab._token_freqs vocab).*1.
Proof.
  pose proof (token_freqs_spec tokens min_freq reserved_tokens)
    as (Hs & _ & _ & Hval).
  fold vocab corpus in Hs, Hval.
  rewrite ranked_prefix_filter by done.
  induction (Vocab._token_freqs vocab) as [|[k n] l IH]; [done|].
  rewrite fmap_cons. simpl.
  assert (n = frequency k corpus) as Hn by (apply Hval; set_solver).
  rewrite !filter_cons. simpl. rewrite <- Hn.
  apply StronglySorted_inv in Hs as [Hs _].
  rewrite <- IH by (done || intros; apply Hval; set_solver).
  by case_decide.
Qed.

Lemma token_freqs_distinct :
  (Vocab._token_freqs vocab).*1 ≡ₚ distinct_tokens corpus.
Proof.
  pose proof (token_freqs_spec tokens min_freq reserved_tokens)
    as (_ & Hnd & Hmem & _).
  apply NoDup_Permutation; [done | apply NoDup_remove_dups |].
  intros k. unfold distinct_tokens. rewrite elem_of_remove_dups. apply Hmem.
Qed.

(** Which tokens the vocabulary holds. *)
Lemma elem_of_idx_to_token t :
  t ∈ Vocab.idx_to_token vocab
  ↔ t ∈ base ∨ (t ∈ corpus ∧ min_freq ≤ frequency t corpus).
Proof.
  pose proof (token_freqs_spec tokens min_freq reserved_tokens)
    as (_ & _ & Hmem & _).
  fold vocab corpus in Hmem.
  rewrite init_idx_to_token, ranked_prefix_keys.
  rewrite elem_of_app, !list_elem_of_filter, Hmem.
  destruct (decide (t ∈ base)); naive_solver.
Qed.

End constructed.

(** ** Properties of the pipeline *)

(** *** Size of the vocabulary *)

(** C1, as stated, fails: a corpus token that is also a reserved token is
    counted twice by the formula [1 + len(reserved_tokens) + number of
    distinct tokens with frequency >= min_freq], but entered once by
    [Vocab.__init__]. With tokens [["a"]], [min_freq = 0] and reserved
    tokens [["a"]] the vocabulary has 2 entries, the formula gives 3. *)
Lemma len_formula_counts_reserved_token_twice :
  Vocab.__len__ (Vocab.__init__ (Some (Tokens1D ["a"])) 0 (Some ["a"]))
  ≠ 1 + Z.of_nat (length ["a"])
    + Z.of_nat (length (filter (λ t, 0 ≤ frequency t (corpus_of (Some (Tokens1D ["a"]))))
                               (distinct_tokens (corpus_of (Some (Tokens1D ["a"])))))).
Proof. vm_compute. discriminate. Qed.

(** C1, amended: the size of the constructed vocabulary is 1 (the unknown
    marker) plus the number of reserved tokens plus the number of
    distinct tokens whose frequency is at least [min_freq] and that are
    neither the unknown marker nor a reserved token. *)
Theorem vocab_len tokens min_freq reserved_tokens :
  Vocab.__len__ (Vocab.__init__ tokens min_freq reserved_tokens)
  = 1 + Z.of_nat (length (default [] reserved_tokens))
    + Z.of_nat (length (filter
        (λ t, min_freq ≤ frequency t (corpus_of tokens)
              ∧ t ∉ "<unk>" :: default [] reserved_tokens)
        (distinct_tokens (corpus_of tokens)))).
Proof.
  unfold Vocab.__len__.
  rewrite init_idx_to_token, ranked_prefix_keys, list_filter_filter.
  rewrite length_app, token_freqs_distinct. simpl length.
  rewrite (list_filter_iff _
    (λ t, min_freq ≤ frequency t (corpus_of tokens)
          ∧ t ∉ "<unk>" :: default [] reserved_tokens)) by (intros; tauto).
  lia.
Qed.

(** *** Index to token *)

Lemma list_getitem_spec {A} (l : list A) (i : Z) :
  let n := Z.of_nat (length l) in
  Py.list_getitem l i =
  if decide (0 ≤ i < n) then
    match l !! Z.to_nat i with Some x => Py.Return x | None => Py.Raise Py.IndexError end
  else if decide (- n ≤ i < 0) then
    match l !! Z.to_nat (i + n) with Some x => Py.Return x | None => Py.Raise Py.IndexError end
  else Py.Raise Py.IndexError.
Proof.
  intros n. unfold Py.list_getitem. fold n.
  destruct (Z.ltb_spec i 0).
  - rewrite decide_False by lia.
    destruct (Z.ltb_spec (i + n) 0); simpl.
    + by rewrite decide_False by lia.
    + destruct (Z.leb_spec n (i + n)); [lia|]. by rewrite decide_True by lia.
  - destruct (Z.ltb_spec i 0); [lia|]. simpl.
    destruct (Z.leb_spec n i).
    + by rewrite !decide_False by lia.
    + by rewrite decide_True by lia.
Qed.

Lemma list_getitem_out_of_range {A} (l : list A) (i : Z) :
  i < - Z.of_nat (length l) ∨ Z.of_nat (length l) ≤ i →
  Py.list_getitem l i = Py.Raise Py.IndexError.
Proof. intros Hout. rewrite list_getitem_spec. by rewrite !decide_False by lia. Qed.

Lemma list_getitem_raises {A} (l : list A) (i : Z) e :
  Py.list_getitem l i = Py.Raise e → e = Py.IndexError.
Proof.
  rewrite list_getitem_spec. simpl.
  repeat case_decide; repeat case_match; congruence.
Qed.

(** A list of indices with one out of range: the comprehension raises. *)
Lemma mapM_getitem_out_of_range {A} (l : list A) (indices : list Z) :
  (∃ j, j ∈ indices ∧ (j < - Z.of_nat (length l) ∨ Z.of_nat (length l) ≤ j)) →
  Py.mapM (λ index, match index with
                    | Index i => Py.list_getitem l i
                    | IndexList _ => Py.Raise Py.TypeError
                    end) (map Index indices)
  = Py.Raise Py.IndexError.
Proof.
  induction indices as [|i indices IH]; intros (j & Hin & Hout).
  - by apply not_elem_of_nil in Hin.
  - simpl. destruct (Py.list_getitem l i) as [x|e] eqn:Hget; simpl.
    + apply elem_of_cons in Hin as [->|Hin].
      * by rewrite list_getitem_out_of_range in Hget.
      * rewrite IH; [done | by exists j].
    + by rewrite (list_getitem_raises _ _ _ Hget).
Qed.

(** C2, as stated, fails: a negative index down to [-len(vocab)] is not
    an error, the subscript counts from the end of [idx_to_token]. In the
    vocabulary ["<unk>"; "a"; "b"; "c"], index -1 returns token "c". *)
Lemma to_tokens_negative_index_returns_token :
  -1 < 0 ∧ Vocab.to_tokens scenario_vocab (Index (-1)) = Py.Return (Token "c").
Proof. split; [lia | vm_compute; reflexivity]. Qed.

(** C2, amended: for every vocabulary and every integer index [i], the
    lookup [to_tokens(i)] raises [IndexError] when [i >= len(vocab)] or
    [i < -len(vocab)], and returns no token then; an index with
    [-len(vocab) <= i < 0] is not an error, it returns the token at
    position [len(vocab) + i]; an index with [0 <= i < len(vocab)]
    returns the token at position [i]. A list of indices is looked up
    element by element, and raises [IndexError] as soon as one of them is
    out of range in that sense. *)
Theorem to_tokens_bounds (self : Vocab.t) (i : Z) :
  let n := Vocab.__len__ self in
  (i < - n ∨ n ≤ i → Vocab.to_tokens self (Index i) = Py.Raise Py.IndexError)
  ∧ (- n ≤ i < 0 →
     ∃ t, Vocab.idx_to_token self !! Z.to_nat (n + i) = Some t
          ∧ Vocab.to_tokens self (Index i) = Py.Return (Token t))
  ∧ (0 ≤ i < n →
     ∃ t, Vocab.idx_to_token self !! Z.to_nat i = Some t
          ∧ Vocab.to_tokens self (Index i) = Py.Return (Token t))
  ∧ (∀ indices : list Z,
       (∃ j, j ∈ indices ∧ (j < - n ∨ n ≤ j)) →
       Vocab.to_tokens self (IndexList (map Index indices))
       = Py.Raise Py.IndexError).
Proof.
  intros n. unfold Vocab.to_tokens, Vocab.at_index.
  rewrite list_getitem_spec. fold (Vocab.__len__ self). fold n.
  split_and!; [| | |intros indices Hbad; by rewrite mapM_getitem_out_of_range].
  - intros Hout. by rewrite !decide_False by lia.
  - intros Hneg. rewrite decide_False, decide_True by lia.
    destruct (lookup_lt_is_Some_2 (Vocab.idx_to_token self) (Z.to_nat (n + i)))
      as [t Ht]; [unfold n, Vocab.__len__ in *; lia|].
    exists t. split; [done|]. by rewrite Z.add_comm, Ht.
  - intros Hin. rewrite decide_True by lia.
    destruct (lookup_lt_is_Some_2 (Vocab.idx_to_token self) (Z.to_nat i))
      as [t Ht]; [unfold n, Vocab.__len__ in *; lia|].
    exists t. split; [done|]. by rewrite Ht.
Qed.

Lemma to_tokens_bounds_witness :
  (4 < - Vocab.__len__ scenario_vocab ∨ Vocab.__len__ scenario_vocab ≤ 4)
  ∧ Vocab.to_tokens scenario_vocab (Index 4) = Py.Raise Py.IndexError.
Proof.
  assert (4 < - Vocab.__len__ scenario_vocab ∨ Vocab.__len__ scenario_vocab ≤ 4)
    as Hout by (right; vm_compute; discriminate).
  split; [exact Hout|].
  exact (proj1 (to_tokens_bounds scenario_vocab 4) Hout).
Defined.

(** *** Unknown tokenization mode *)

(** C3, as stated, fails: for an unknown mode [tokenize] does not
    surface a failure to its caller. Nothing is raised: the call returns
    [None] like any other value, and a caller that hands the result on
    goes on without an error. With lines ["the time machine"] and mode
    'sentence', [tokenize] returns, and [Vocab(tokenize(lines,
    'sentence'))] is the vocabulary ['<unk>']. *)
Lemma tokenize_unknown_mode_returns_normally :
  "sentence" ≠ "word" ∧ "sentence" ≠ "char"
  ∧ (tokenize_call ["the time machine"] "sentence").2 = Py.Return None
  ∧ Vocab.idx_to_token
      (Vocab.__init__ (Tokens2D <$> (tokenize ["the time machine"] "sentence").2)
                      0 None)
    = ["<unk>"].
Proof. split_and!; [discriminate | discriminate | reflexivity | reflexivity]. Qed.

(** C3, amended: for every list of lines and every mode other than
    'word' and 'char', [tokenize] prints one message that names the
    unknown mode and produces no token output, with no fallback to a
    default mode: it returns [None]. The condition is not raised: the
    call returns normally, and the caller learns of it from the printed
    message and the [None] only. *)
Theorem tokenize_unknown_mode (lines : list string) (token : string) :
  token ≠ "word" → token ≠ "char" →
  tokenize lines token = (["错误：未知词元类型：" +:+ token], None)
  ∧ tokenize_call lines token
    = (["错误：未知词元类型：" +:+ token], Py.Return None).
Proof.
  intros Hword Hchar. unfold tokenize_call, tokenize.
  destruct (String.eqb_spec token "word"); [done|].
  destruct (String.eqb_spec token "char"); [done|].
  split; reflexivity.
Qed.

Lemma tokenize_unknown_mode_witness :
  "sentence" ≠ "word" ∧ "sentence" ≠ "char"
  ∧ tokenize ["the time machine"] "sentence"
    = (["错误：未知词元类型：sentence"], None)
  ∧ tokenize_call ["the time machine"] "sentence"
    = (["错误：未知词元类型：sentence"], Py.Return None).
Proof.
  split_and!; [discriminate | discriminate | |];
    apply (tokenize_unknown_mode ["the time machine"] "sentence"); discriminate.
Defined.

(** *** Token to index, and back *)

Section lookup.

Variable self : Vocab.t.
Hypothesis Hok : index_ok (Vocab.idx_to_token self) (Vocab.token_to_idx self).

Lemma get_hit t :
  t ∈ Vocab.idx_to_token self →
  Vocab.token_to_idx self !! t = Some (Vocab.get self t)
  ∧ 0 ≤ Vocab.get self t < Vocab.__len__ self
  ∧ Vocab.idx_to_token self !! Z.to_nat (Vocab.get self t) = Some t.
Proof.
  intros [i Hi]%Hok. unfold Vocab.get. rewrite Hi. simpl.
  destruct (proj2 Hok t i Hi) as [Hpos Hat].
  split_and!; [done | done | | done].
  apply lookup_lt_Some in Hat. unfold Vocab.__len__. lia.
Qed.

Lemma get_miss t : t ∉ Vocab.idx_to_token self → Vocab.get self t = 0.
Proof.
  intros Hout. unfold Vocab.get.
  destruct (Vocab.token_to_idx self !! t) eqn:Hlk; [|done].
  exfalso. apply Hout, Hok. by rewrite Hlk.
Qed.

Lemma to_tokens_at (i : Z) t :
  0 ≤ i → Vocab.idx_to_token self !! Z.to_nat i = Some t →
  Vocab.to_tokens self (Index i) = Py.Return (Token t).
Proof.
  intros Hpos Hat. unfold Vocab.to_tokens, Vocab.at_index.
  rewrite list_getitem_spec.
  pose proof (lookup_lt_Some _ _ _ Hat).
  rewrite decide_True by lia. by rewrite Hat.
Qed.

(** With pairwise distinct entries, [token_to_idx] inverts
    [idx_to_token] exactly. *)
Lemma index_ok_inverse (i : nat) t :
  NoDup (Vocab.idx_to_token self) →
  Vocab.idx_to_token self !! i = Some t →
  Vocab.token_to_idx self !! t = Some (Z.of_nat i).
Proof.
  intros Hnd Hat.
  destruct (proj1 (proj1 Hok t)) as [j Hj];
    [by eapply list_elem_of_lookup_2|].
  destruct (proj2 Hok t j Hj) as [Hpos Hat'].
  rewrite Hj. f_equal.
  pose proof (NoDup_lookup _ _ _ _ Hnd Hat Hat'). lia.
Qed.

End lookup.

(** C4: in every constructed vocabulary the token-to-index lookup
    returns a value for every token string: the index of the token if the
    vocabulary holds it (a position of [idx_to_token] where that token
    is), and the unknown index 0 if it does not. The vocabulary does not
    hold a token exactly when the token is neither the unknown marker nor
    reserved, and is either not in the corpus or below [min_freq]. *)
Theorem getitem_never_fails tokens min_freq reserved_tokens (t : string) :
  let vocab := Vocab.__init__ tokens min_freq reserved_tokens in
  let corpus := corpus_of tokens in
  Vocab.__getitem__ vocab (Token t) = Index (Vocab.get vocab t)
  ∧ (t ∈ Vocab.idx_to_token vocab →
     0 ≤ Vocab.get vocab t < Vocab.__len__ vocab
     ∧ Vocab.idx_to_token vocab !! Z.to_nat (Vocab.get vocab t) = Some t)
  ∧ (t ∉ Vocab.idx_to_token vocab → Vocab.get vocab t = Vocab.unk vocab)
  ∧ Vocab.unk vocab = 0
  ∧ (t ∉ Vocab.idx_to_token vocab
     ↔ (t ∉ "<unk>" :: default [] reserved_tokens)
       ∧ (t ∉ corpus ∨ frequency t corpus < min_freq)).
Proof.
  intros vocab corpus.
  pose proof (init_index_ok tokens min_freq reserved_tokens) as Hok.
  fold vocab in Hok.
  split_and!; [done | | by apply get_miss | done |].
  - intros Hin. by destruct (get_hit vocab Hok t Hin) as (_ & ? & ?).
  - subst vocab corpus. rewrite elem_of_idx_to_token.
    destruct (decide (t ∈ corpus_of tokens));
      destruct (decide (min_freq ≤ frequency t (corpus_of tokens)));
      naive_solver lia.
Qed.

Lemma getitem_never_fails_witness :
  ("zebra" ∉ Vocab.idx_to_token scenario_vocab)
  ∧ Vocab.get scenario_vocab "zebra" = Vocab.unk scenario_vocab.
Proof.
  assert ("zebra" ∉ Vocab.idx_to_token scenario_vocab) as Hout.
  { vm_compute. intros Hin. repeat (apply elem_of_cons in Hin as [[=]|Hin]).
    by apply not_elem_of_nil in Hin. }
  split; [exact Hout|].
  exact (proj1 (proj2 (proj2
    (getitem_never_fails (Some (Tokens1D ["a"; "b"; "a"; "c"; "a"; "b"])) 0 None "zebra")))
    Hout).
Defined.

(** C5 (round trip): for every vocabulary built from a token collection
    with threshold [min_freq], and every token [t] that occurs in the
    collection with frequency at least [min_freq], [token_to_idx] maps
    [t] to an index within [0 .. len(vocab) - 1], and [idx_to_token] at
    that index is [t]. *)
Theorem round_trip tokens min_freq reserved_tokens (t : string) :
  t ∈ corpus_of tokens →
  min_freq ≤ frequency t (corpus_of tokens) →
  let vocab := Vocab.__init__ tokens min_freq reserved_tokens in
  let i := Vocab.get vocab t in
  Vocab.token_to_idx vocab !! t = Some i
  ∧ 0 ≤ i < Vocab.__len__ vocab
  ∧ Vocab.idx_to_token vocab !! Z.to_nat i = Some t
  ∧ Vocab.to_tokens vocab (Vocab.__getitem__ vocab (Token t)) = Py.Return (Token t).
Proof.
  intros Hin Hfreq vocab i.
  pose proof (init_index_ok tokens min_freq reserved_tokens) as Hok.
  fold vocab in Hok.
  assert (t ∈ Vocab.idx_to_token vocab) as Hheld
    by (apply elem_of_idx_to_token; by right).
  destruct (get_hit vocab Hok t Hheld) as (Hlk & Hrange & Hat).
  refine (conj Hlk (conj Hrange (conj Hat _))).
  simpl. apply to_tokens_at; [lia | done].
Qed.

Lemma round_trip_witness :
  "b" ∈ corpus_of (Some (Tokens1D ["a"; "b"; "a"; "c"; "a"; "b"]))
  ∧ 2 ≤ frequency "b" (corpus_of (Some (Tokens1D ["a"; "b"; "a"; "c"; "a"; "b"])))
  ∧ Vocab.to_tokens
      (Vocab.__init__ (Some (Tokens1D ["a"; "b"; "a"; "c"; "a"; "b"])) 2 None)
      (Vocab.__getitem__
         (Vocab.__init__ (Some (Tokens1D ["a"; "b"; "a"; "c"; "a"; "b"])) 2 None)
         (Token "b"))
    = Py.Return (Token "b").
Proof.
  assert ("b" ∈ corpus_of (Some (Tokens1D ["a"; "b"; "a"; "c"; "a"; "b"]))) as Hin
    by (simpl; set_solver).
  assert (2 ≤ frequency "b" (corpus_of (Some (Tokens1D ["a"; "b"; "a"; "c"; "a"; "b"]))))
    as Hfreq by (vm_compute; discriminate).
  split_and!; [exact Hin | exact Hfreq |].
  exact (proj2 (proj2 (proj2
    (round_trip (Some (Tokens1D ["a"; "b"; "a"; "c"; "a"; "b"])) 2 None "b" Hin Hfreq)))).
Defined.

(** *** Order of assignment *)

(** C6, as stated, fails: after the reserved tokens the loop does not
    enter every distinct corpus token that reaches [min_freq]; it also
    skips a token the vocabulary already holds. With tokens [["a"]],
    [min_freq = 0] and reserved tokens [["a"]], [idx_to_token] is
    ["<unk>"; "a"], not ["<unk>"; "a"; "a"]. *)
Lemma order_formula_repeats_reserved_token :
  Vocab.idx_to_token (Vocab.__init__ (Some (Tokens1D ["a"])) 0 (Some ["a"]))
  ≠ "<unk>" :: ["a"]
    ++ (ranked_prefix 0
          (Vocab.token_freqs (Vocab.__init__ (Some (Tokens1D ["a"])) 0 (Some ["a"])))).*1.
Proof. vm_compute. discriminate. Qed.

(** C6, amended: [idx_to_token] is the unknown marker at index 0, then
    the reserved tokens in the caller's order, then the distinct corpus
    tokens that are neither the unknown marker nor reserved, in
    descending frequency order, up to the first token of the ranked list
    whose frequency is below [min_freq]; no token ranked after that one
    reaches [min_freq]. In particular, tokens ["a";"b";"a";"c";"a";"b"]
    with [min_freq = 0] and no reserved tokens give
    ["<unk>"; "a"; "b"; "c"], and "a" has index 1. *)
Theorem idx_to_token_order tokens min_freq reserved_tokens :
  let vocab := Vocab.__init__ tokens min_freq reserved_tokens in
  let reserved := default [] reserved_tokens in
  let corpus := corpus_of tokens in
  let freqs := Vocab.token_freqs vocab in
  (StronglySorted count_ge freqs
   ∧ freqs.*1 ≡ₚ distinct_tokens corpus
   ∧ Forall (λ p, p.2 = frequency p.1 corpus) freqs)
  ∧ ranked_prefix min_freq freqs = filter (λ p, min_freq ≤ p.2) freqs
  ∧ Vocab.idx_to_token vocab
    = "<unk>" :: reserved
      ++ filter (λ t, t ∉ "<unk>" :: reserved) (ranked_prefix min_freq freqs).*1
  ∧ Vocab.idx_to_token scenario_vocab = ["<unk>"; "a"; "b"; "c"]
  ∧ Vocab.token_to_idx scenario_vocab !! "a" = Some 1.
Proof.
  intros vocab reserved corpus freqs.
  pose proof (token_freqs_spec tokens min_freq reserved_tokens)
    as (Hs & _ & _ & Hval).
  split_and!.
  - done.
  - apply token_freqs_distinct.
  - apply Forall_forall. intros [k n] Hin. by apply Hval.
  - by apply ranked_prefix_filter.
  - apply init_idx_to_token.
  - vm_compute. reflexivity.
  - vm_compute. reflexivity.
Qed.

(** *** Uniqueness and the inverse mapping *)

(** C7, as stated, fails: [Vocab.__init__] enters the reserved tokens as
    they are given. With reserved tokens ["<pad>"; "<pad>"] the entries
    of [idx_to_token] are not pairwise distinct, and [token_to_idx] does
    not map the token at position 1 back to 1. *)
Lemma repeated_reserved_token_breaks_inverse :
  ¬ NoDup (Vocab.idx_to_token (Vocab.__init__ None 0 (Some ["<pad>"; "<pad>"])))
  ∧ Vocab.idx_to_token (Vocab.__init__ None 0 (Some ["<pad>"; "<pad>"])) !! 1%nat
    = Some "<pad>"
  ∧ Vocab.token_to_idx (Vocab.__init__ None 0 (Some ["<pad>"; "<pad>"])) !! "<pad>"
    = Some 2.
Proof.
  split_and!; [|vm_compute; reflexivity..].
  vm_compute. intros Hnd.
  apply NoDup_cons in Hnd as [_ Hnd]. apply NoDup_cons in Hnd as [Hin _].
  apply Hin. by left.
Qed.

(** C7, amended: when the reserved tokens are pairwise distinct and none
    of them is the unknown marker, the entries of [idx_to_token] are
    pairwise distinct and [token_to_idx] is the exact inverse mapping of
    [idx_to_token]: it maps the token at position [i] back to [i], and
    holds nothing else. *)
Theorem idx_to_token_inverse tokens min_freq reserved_tokens :
  NoDup ("<unk>" :: default [] reserved_tokens) →
  let vocab := Vocab.__init__ tokens min_freq reserved_tokens in
  NoDup (Vocab.idx_to_token vocab)
  ∧ (∀ (i : nat) t,
       Vocab.idx_to_token vocab !! i = Some t →
       Vocab.token_to_idx vocab !! t = Some (Z.of_nat i))
  ∧ (∀ t (j : Z),
       Vocab.token_to_idx vocab !! t = Some j →
       0 ≤ j ∧ Vocab.idx_to_token vocab !! Z.to_nat j = Some t).
Proof.
  intros Hbase vocab.
  pose proof (init_index_ok tokens min_freq reserved_tokens) as Hok.
  fold vocab in Hok.
  assert (NoDup (Vocab.idx_to_token vocab)) as Hnd.
  { subst vocab. rewrite init_idx_to_token, ranked_prefix_keys.
    pose proof (token_freqs_spec tokens min_freq reserved_tokens)
      as (_ & Hkeys & _).
    apply NoDup_app. split_and!; [done | |].
    - intros t Hin [Hout _]%list_elem_of_filter. by apply Hout.
    - by do 2 apply NoDup_filter. }
  split_and!; [done | | apply Hok].
  intros i t. by apply index_ok_inverse.
Qed.

Lemma idx_to_token_inverse_witness :
  NoDup ("<unk>" :: default [] (Some ["<pad>"; "<bos>"]))
  ∧ NoDup (Vocab.idx_to_token
             (Vocab.__init__ (Some (Tokens1D ["a"; "b"; "a"])) 0
                             (Some ["<pad>"; "<bos>"]))).
Proof.
  assert (NoDup ("<unk>" :: default [] (Some ["<pad>"; "<bos>"]))) as Hbase.
  { simpl. repeat (apply NoDup_cons; split; [set_solver|]). apply NoDup_nil_2. }
  split; [exact Hbase|].
  exact (proj1 (idx_to_token_inverse (Some (Tokens1D ["a"; "b"; "a"])) 0
                  (Some ["<pad>"; "<bos>"]) Hbase)).
Defined.

(** *** Character tokens *)

Lemma list_of_str_chars (line : string) :
  Py.list_of_str line = map (λ c, String c "") (String.list_ascii_of_string line).
Proof. induction line as [|c r IH]; simpl; [done|]. by rewrite IH. Qed.

Lemma list_of_str_length (line : string) :
  length (Py.list_of_str line) = String.length line.
Proof. induction line as [|c r IH]; simpl; [done|]. by rewrite IH. Qed.

(** C9: in 'char' mode [tokenize] prints nothing and maps each line to
    the list of its characters, in order, each as a token of its own,
    spaces included; the number of tokens of a line is the number of its
    characters. *)
Theorem tokenize_char (lines : list string) :
  tokenize lines "char" = ([], Some (map Py.list_of_str lines))
  ∧ Forall (λ line,
      Py.list_of_str line = map (λ c, String c "") (String.list_ascii_of_string line)
      ∧ length (Py.list_of_str line) = String.length line) lines.
Proof.
  split; [done|].
  apply Forall_forall. intros line _.
  split; [apply list_of_str_chars | apply list_of_str_length].
Qed.

Example tokenize_char_spaces :
  tokenize ["a b"] "char" = ([], Some [["a"; " "; "b"]]).
Proof. reflexivity. Qed.

(** *** Truncation of the corpus *)

Lemma list_slice_to_take {A} (l : list A) (k : Z) :
  0 < k → Py.list_slice_to l k = take (Z.to_nat k) l.
Proof.
  intros Hk. unfold Py.list_slice_to.
  destruct (Z.ltb_spec k 0); [lia|].
  destruct (Z.le_gt_cases k (Z.of_nat (length l))).
  - by rewrite Z.min_l.
  - rewrite Z.min_r, Nat2Z.id by lia.
    by rewrite !take_ge by lia.
Qed.

(** C8: [load_corpus_time_machine] returns a vocabulary built from all
    character tokens of the data set, whatever [max_tokens] is. If
    [max_tokens > 0] the returned index sequence is the first
    [max_tokens] indices of the full sequence, of length
    [min(max_tokens, full length)]; if [max_tokens <= 0] it is the full
    sequence. *)
Theorem load_corpus_truncates (raw_lines : list string) (max_tokens : Z) :
  let tokens := map Py.list_of_str (read_time_machine raw_lines) in
  let vocab := Vocab.__init__ (Some (Tokens2D tokens)) 0 None in
  let full := map (Vocab.get vocab) (concat tokens) in
  ∃ corpus,
    load_corpus_time_machine raw_lines max_tokens = Py.Return (corpus, vocab)
    ∧ (0 < max_tokens →
       corpus = take (Z.to_nat max_tokens) full
       ∧ Z.of_nat (length corpus) = Z.min max_tokens (Z.of_nat (length full)))
    ∧ (max_tokens ≤ 0 → corpus = full).
Proof.
  intros tokens vocab full. unfold load_corpus_time_machine.
  cbn [tokenize String.eqb Ascii.eqb Bool.eqb snd fmap option_fmap option_map].
  fold tokens. fold vocab. fold full.
  destruct (Z.ltb_spec 0 max_tokens) as [Hpos|Hle].
  - eexists. split; [done|]. split; [|lia].
    intros _. rewrite list_slice_to_take by done.
    split; [done|]. rewrite length_take. lia.
  - eexists. split; [done|]. split; [lia|done].
Qed.

Lemma load_corpus_truncates_witness :
  0 < 4
  ∧ ∃ corpus vocab,
      load_corpus_time_machine ["Ab, ba!"; "c a"] 4 = Py.Return (corpus, vocab)
      ∧ Z.of_nat (length corpus) = 4.
Proof.
  assert (0 < 4) as Hpos by lia.
  split; [exact Hpos|].
  destruct (load_corpus_truncates ["Ab, ba!"; "c a"] 4)
    as (corpus & Hload & Htrunc & _).
  exists corpus. eexists. split; [exact Hload|].
  destruct (Htrunc Hpos) as [_ ->]. vm_compute. reflexivity.
Defined.

(** *** The empty vocabulary *)

(** C10: a [Vocab] constructed with no tokens ([tokens] omitted or an
    empty list) and no reserved tokens has [idx_to_token = ['<unk>']] and
    size 1, and every token lookup in it returns the unknown index 0. *)
Theorem empty_vocab tokens (min_freq : Z) reserved_tokens :
  tokens = None ∨ tokens = Some (Tokens1D []) ∨ tokens = Some (Tokens2D []) →
  reserved_tokens = None ∨ reserved_tokens = Some [] →
  let vocab := Vocab.__init__ tokens min_freq reserved_tokens in
  Vocab.idx_to_token vocab = ["<unk>"]
  ∧ Vocab.__len__ vocab = 1
  ∧ ∀ t : string,
      Vocab.get vocab t = 0 ∧ Vocab.__getitem__ vocab (Token t) = Index 0.
Proof.
  intros Htokens Hreserved vocab.
  assert (Vocab.idx_to_token vocab = ["<unk>"]) as Hidx.
  { subst vocab. destruct Htokens as [->|[->| ->]], Hreserved as [->| ->]; done. }
  pose proof (init_index_ok tokens min_freq reserved_tokens) as Hok.
  fold vocab in Hok.
  assert (∀ t, Vocab.get vocab t = 0) as Hget.
  { intros t. destruct (decide (t ∈ Vocab.idx_to_token vocab)) as [Hin|Hout].
    - destruct (get_hit vocab Hok t Hin) as (_ & Hrange & _).
      unfold Vocab.__len__ in Hrange. rewrite Hidx in Hrange. simpl in Hrange. lia.
    - by apply get_miss. }
  split_and!; [done | by unfold Vocab.__len__; rewrite Hidx |].
  intros t. split; [done|]. simpl. by rewrite Hget.
Qed.

Lemma empty_vocab_witness :
  (@None tokens_arg = None ∨ @None tokens_arg = Some (Tokens1D [])
   ∨ @None tokens_arg = Some (Tokens2D []))
  ∧ (@None (list string) = None ∨ @None (list string) = Some [])
  ∧ Vocab.idx_to_token (Vocab.__init__ None 0 None) = ["<unk>"]
  ∧ Vocab.get (Vocab.__init__ None 0 None) "a" = 0.
Proof.
  assert (@None tokens_arg = None ∨ @None tokens_arg = Some (Tokens1D [])
   ∨ @None tokens_arg = Some (Tokens2D []))
    as Htokens by (left; reflexivity).
  assert (@None (list string) = None ∨ @None (list string) = Some [])
    as Hreserved by (left; reflexivity).
  destruct (empty_vocab None 0 None Htokens Hreserved) as (Hidx & _ & Hget).
  split_and!; [exact Htokens | exact Hreserved | exact Hidx | exact (proj1 (Hget "a"))].
Defined.

(** ** Facts about characters *)

Section characters.

Lemma alpha_not_space c : Py.is_alpha c = true → Py.is_space c = false.
Proof. destruct c as [[] [] [] [] [] [] [] []]; vm_compute; congruence. Qed.

Lemma alpha_not_blank c : Py.is_alpha c = true → Ascii.eqb c " " = false.
Proof. destruct c as [[] [] [] [] [] [] [] []]; vm_compute; congruence. Qed.

Lemma lower_alpha c : is_lower c = true → Py.is_alpha c = true.
Proof. destruct c as [[] [] [] [] [] [] [] []]; vm_compute; congruence. Qed.

Lemma lower_char_alpha c : Py.is_alpha c = true → is_lower (Py.lower_char c) = true.
Proof. destruct c as [[] [] [] [] [] [] [] []]; vm_compute; congruence. Qed.

Lemma lower_char_lower c : is_lower c = true → Py.lower_char c = c.
Proof. destruct c as [[] [] [] [] [] [] [] []]; vm_compute; congruence. Qed.

Lemma lower_char_blank c : Ascii.eqb (Py.lower_char c) " " = Ascii.eqb c " ".
Proof. destruct c as [[] [] [] [] [] [] [] []]; vm_compute; congruence. Qed.

Lemma blank_space c : Ascii.eqb c " " = true → Py.is_space c = true.
Proof. intros ->%Ascii.eqb_eq. reflexivity. Qed.

End characters.

(** ** Facts about the normalization of a line *)

Section normalization.

Lemma spaced_nonempty letter s : spaced letter true s = true → s ≠ "".
Proof. by destruct s. Qed.

(** After the substitution only letters and single spaces are left, and
    no space opens the text when a run is being replaced. *)
Lemma sub_non_alpha_single_spaced in_run s :
  single_spaced Py.is_alpha in_run (Py.sub_non_alpha in_run s) = true.
Proof.
  revert in_run. induction s as [|c r IH]; intros in_run; simpl; [done|].
  destruct (Py.is_alpha c) eqn:Hc; simpl.
  - by rewrite alpha_not_blank, Hc, IH.
  - destruct in_run; [apply IH|]. simpl. apply IH.
Qed.

Lemma lstrip_single_spaced after_space s :
  single_spaced Py.is_alpha after_space s = true →
  single_spaced Py.is_alpha true (Py.lstrip s) = true.
Proof.
  revert after_space. induction s as [|c r IH]; intros p; simpl; [done|].
  destruct (Ascii.eqb c " ") eqn:Hc.
  - rewrite (blank_space _ Hc). intros [_ Hr]%andb_prop. by eapply IH.
  - intros [Ha Hr]%andb_prop. rewrite (alpha_not_space _ Ha). simpl.
    by rewrite Hc, Ha, Hr.
Qed.

Lemma rstrip_spaced after_space s :
  single_spaced Py.is_alpha after_space s = true →
  Py.rstrip s = "" ∨ spaced Py.is_alpha after_space (Py.rstrip s) = true.
Proof.
  revert after_space. induction s as [|c r IH]; intros p; simpl; [by left|].
  destruct (Ascii.eqb c " ") eqn:Hc.
  - intros [Hp Hr]%andb_prop. rewrite (blank_space _ Hc). simpl.
    destruct (IH _ Hr) as [->|Hs]; [by left|]. right.
    destruct (Py.rstrip r) eqn:Hrs; [done|]. simpl. simpl in Hs.
    by rewrite Hc, Hp.
  - intros [Ha Hr]%andb_prop. rewrite (alpha_not_space _ Ha). simpl. right.
    rewrite Hc, Ha. simpl. destruct (IH _ Hr) as [->|Hs]; done.
Qed.

Lemma lower_spaced after_space s :
  spaced Py.is_alpha after_space s = true →
  spaced is_lower after_space (Py.lower s) = true.
Proof.
  revert after_space. induction s as [|c r IH]; intros p; simpl; [done|].
  rewrite lower_char_blank. destruct (Ascii.eqb c " ").
  - intros [-> Hr]%andb_prop. simpl. by apply IH.
  - intros [Ha Hr]%andb_prop. by rewrite (lower_char_alpha _ Ha), (IH _ Hr).
Qed.

(** One line of [read_time_machine] is a normalized line. *)
Lemma normalize_normal line :
  normal_line (Py.lower (Py.strip (Py.sub_non_alpha false line))).
Proof.
  unfold Py.strip.
  pose proof (sub_non_alpha_single_spaced false line) as H1.
  apply lstrip_single_spaced in H1.
  destruct (rstrip_spaced _ _ H1) as [->|Hs]; [by left|].
  right. by apply lower_spaced.
Qed.

(** On a normalized line each step of the normalization does nothing. *)
Lemma sub_non_alpha_normal in_run after_space s :
  spaced is_lower after_space s = true →
  (in_run = true → after_space = true) →
  Py.sub_non_alpha in_run s = s.
Proof.
  revert in_run after_space. induction s as [|c r IH]; intros b p; simpl; [done|].
  destruct (Ascii.eqb c " ") eqn:Hc.
  - apply Ascii.eqb_eq in Hc as ->. intros [Hp Hr]%andb_prop Hb. simpl.
    destruct b; [destruct p; naive_solver|].
    by rewrite (IH true true).
  - intros [Hl Hr]%andb_prop _. rewrite (lower_alpha _ Hl).
    by rewrite (IH false false).
Qed.

Lemma lstrip_normal s : spaced is_lower true s = true → Py.lstrip s = s.
Proof.
  destruct s as [|c r]; simpl; [done|].
  destruct (Ascii.eqb c " "); [done|].
  intros [Hl _]%andb_prop. by rewrite (alpha_not_space _ (lower_alpha _ Hl)).
Qed.

Lemma rstrip_normal after_space s :
  spaced is_lower after_space s = true → Py.rstrip s = s.
Proof.
  revert after_space. induction s as [|c r IH]; intros p; simpl; [done|].
  destruct (Ascii.eqb c " ") eqn:Hc.
  - intros [_ Hr]%andb_prop. rewrite (IH _ Hr).
    destruct r; [done|]. by rewrite andb_false_r.
  - intros [Hl Hr]%andb_prop. rewrite (IH _ Hr).
    by rewrite (alpha_not_space _ (lower_alpha _ Hl)).
Qed.

Lemma lower_normal after_space s :
  spaced is_lower after_space s = true → Py.lower s = s.
Proof.
  revert after_space. induction s as [|c r IH]; intros p; simpl; [done|].
  destruct (Ascii.eqb c " ") eqn:Hc.
  - apply Ascii.eqb_eq in Hc as ->. intros [_ Hr]%andb_prop. by rewrite (IH _ Hr).
  - intros [Hl Hr]%andb_prop. by rewrite (lower_char_lower _ Hl), (IH _ Hr).
Qed.

Lemma normalize_fixed line :
  normal_line line → Py.lower (Py.strip (Py.sub_non_alpha false line)) = line.
Proof.
  intros [->|Hs]; [done|].
  rewrite (sub_non_alpha_normal false true) by done.
  unfold Py.strip. rewrite lstrip_normal by done.
  rewrite (rstrip_normal true) by done. by apply (lower_normal true).
Qed.

End normalization.

(** ** Facts about the split into words *)

Section words.

Lemma append_cons c r s : String c r +:+ s = String c (r +:+ s).
Proof. reflexivity. Qed.

Lemma append_nil_r s : s +:+ "" = s.
Proof. induction s as [|c r IH]; [done|]. by rewrite append_cons, IH. Qed.

Lemma append_assoc s1 s2 s3 : (s1 +:+ s2) +:+ s3 = s1 +:+ (s2 +:+ s3).
Proof. induction s1 as [|c r IH]; [done|]. by rewrite !append_cons, IH. Qed.

Lemma append_snoc_nonempty w c : w +:+ String c "" ≠ "".
Proof. by destruct w. Qed.

Lemma all_chars_snoc P w c :
  all_chars P (w +:+ String c "") = all_chars P w && P c.
Proof.
  induction w as [|c' r IH]; [simpl; by rewrite andb_true_r|].
  rewrite append_cons. simpl. by rewrite IH, andb_assoc.
Qed.

Lemma concat_empty_cons w l : String.concat "" (w :: l) = w +:+ String.concat "" l.
Proof. destruct l; [symmetry; apply append_nil_r | done]. Qed.

Lemma is_empty_spec s : Py.is_empty s = true ↔ s = "".
Proof. by destruct s. Qed.

(** The tokens of a split are the non-empty runs without white space;
    together they hold every other character of the text, in order. *)
Lemma split_from_spec word s :
  all_chars no_space word = true →
  Forall (λ t, t ≠ "" ∧ all_chars no_space t = true) (Py.split_from word s)
  ∧ String.concat "" (Py.split_from word s) = word +:+ without_space s.
Proof.
  revert word. induction s as [|c r IH]; intros word Hw; simpl.
  - rewrite append_nil_r. destruct word; simpl; [done|].
    split; [|done]. by repeat constructor.
  - destruct (Py.is_space c) eqn:Hc.
    + destruct (IH "" eq_refl) as [Hall Hcat].
      destruct word as [|c' w']; simpl; [done|].
      split; [by constructor|].
      change (String.concat "" (String c' w' :: Py.split_from "" r)
              = String c' w' +:+ without_space r).
      by rewrite concat_empty_cons, Hcat.
    + destruct (IH (word +:+ String c "")) as [Hall Hcat].
      { rewrite all_chars_snoc, Hw. unfold no_space. by rewrite Hc. }
      split; [done|]. by rewrite Hcat, append_assoc.
Qed.

(** On a line of words separated by single spaces the split is undone by
    joining the words with one space. *)
Lemma split_from_join after_space word s :
  spaced is_lower after_space s = true →
  (after_space = true → word = "") →
  (after_space = false → word ≠ "") →
  all_chars is_lower word = true →
  Forall lower_word (Py.split_from word s)
  ∧ Py.split_from word s ≠ []
  ∧ String.concat " " (Py.split_from word s) = word +:+ s.
Proof.
  revert after_space word. induction s as [|c r IH]; intros p word; simpl.
  - intros Hp%negb_true_iff _ Hne Hlow. subst p. rewrite append_nil_r.
    specialize (Hne eq_refl). destruct word; [done|]. simpl.
    split_and!; [|done..]. by repeat constructor.
  - destruct (Ascii.eqb c " ") eqn:Hc.
    + intros [Hp%negb_true_iff Hr]%andb_prop _ Hne Hlow. subst p.
      specialize (Hne eq_refl). rewrite (blank_space _ Hc).
      apply Ascii.eqb_eq in Hc as ->.
      destruct (IH true "" Hr) as (Hall & Hnil & Hcat); [done..|].
      destruct word as [|c' w']; [done|]. simpl.
      split_and!; [by constructor | done |].
      destruct (Py.split_from "" r) eqn:Hsplit; [done|].
      by rewrite Hcat.
    + intros [Hl Hr]%andb_prop _ _ Hlow.
      rewrite (alpha_not_space _ (lower_alpha _ Hl)).
      destruct (IH false (word +:+ String c "") Hr) as (Hall & Hnil & Hcat);
        [done | intros _; apply append_snoc_nonempty
        | by rewrite all_chars_snoc, Hlow, Hl |].
      split_and!; [done..|]. by rewrite Hcat, append_assoc.
Qed.

Lemma split_normal line :
  normal_line line →
  Forall lower_word (Py.split line) ∧ String.concat " " (Py.split line) = line.
Proof.
  intros [->|Hs]; [done|].
  destruct (split_from_join true "" line Hs) as (Hall & _ & Hcat); done.
Qed.

End words.

(** ** The split into maximal runs *)

Section runs.

Lemma length_append s1 s2 :
  String.length (s1 +:+ s2) = (String.length s1 + String.length s2)%nat.
Proof.
  induction s1 as [|c r IH]; [done|]. rewrite append_cons. simpl. by rewrite IH.
Qed.

(** The scan of a run: up to the end of the line or to the next
    white-space character the characters join the word read so far. *)
Lemma split_from_run word s :
  ∃ run rest,
    s = run +:+ rest ∧ all_chars no_space run = true ∧ run_ends rest = true
    ∧ Py.split_from word s = Py.split_from (word +:+ run) rest.
Proof.
  revert word. induction s as [|c r IH]; intros word.
  - exists "", "". rewrite (append_nil_r word). by split_and!.
  - destruct (Py.is_space c) eqn:Hc.
    + exists "", (String c r). rewrite (append_nil_r word). simpl. rewrite Hc.
      by split_and!.
    + destruct (IH (word +:+ String c "")) as (run & rest & -> & Hrun & Hend & Heq).
      exists (String c run), rest. rewrite append_cons. simpl.
      unfold no_space at 1. rewrite Hc. simpl.
      split_and!; [done..|]. rewrite Heq, append_assoc. done.
Qed.

(** At its end a word that is not empty is a token. *)
Lemma split_from_end word rest :
  word ≠ "" → run_ends rest = true →
  Py.split_from word rest = word :: Py.split rest.
Proof.
  intros Hne Hend. unfold Py.split. destruct rest as [|c r]; simpl in *.
  - destruct word; [by destruct Hne | reflexivity].
  - rewrite Hend. destruct word; [by destruct Hne | reflexivity].
Qed.

Lemma word_split_space c line runs :
  Py.is_space c = true → word_split line runs → word_split (String c line) runs.
Proof.
  intros Hc Hsplit. destruct Hsplit as [gap Hgap|gap run rest runs Hgap Hne Hrun Hend Hrest].
  - apply word_split_blank. simpl. by rewrite Hc.
  - apply (word_split_run (String c gap)); [|done..]. simpl. by rewrite Hc.
Qed.

Lemma split_word_split line : word_split line (Py.split line).
Proof.
  remember (String.length line) as n eqn:Hn.
  revert line Hn. induction n as [n IH] using lt_wf_ind. intros line Hn.
  destruct line as [|c r].
  - by apply word_split_blank.
  - destruct (Py.is_space c) eqn:Hc.
    + unfold Py.split. simpl. rewrite Hc.
      apply word_split_space; [done|].
      apply (IH (String.length r)); [simpl in Hn; lia | done].
    + unfold Py.split. simpl. rewrite Hc.
      change ("" +:+ String c "") with (String c "").
      destruct (split_from_run (String c "") r)
        as (run & rest & -> & Hrun & Hend & ->).
      rewrite split_from_end by done.
      apply (word_split_run "" (String c run) rest); [done | done | | done |].
      * simpl. unfold no_space at 1. by rewrite Hc.
      * apply (IH (String.length rest)); [|done].
        simpl in Hn. rewrite length_append in Hn. lia.
Qed.

End runs.

Example word_split_not_by_character : ¬ word_split "ab" ["a"; "b"].
Proof.
  intros Hsplit. inversion Hsplit as [|gap run rest runs Hgap Hne Hrun Hend Hrest Heq].
  subst. destruct gap as [|c gap].
  - change ("" +:+ "a" +:+ rest) with (String "a" rest) in Heq.
    injection Heq as ->. discriminate Hend.
  - rewrite append_cons in Heq. injection Heq as -> _. discriminate Hgap.
Qed.

(** The runs of a line are determined by the line. *)

Section unique_runs.

Lemma all_chars_append P s1 s2 :
  all_chars P (s1 +:+ s2) = all_chars P s1 && all_chars P s2.
Proof.
  induction s1 as [|c r IH]; [done|]. rewrite append_cons. simpl.
  by rewrite IH, andb_assoc.
Qed.

(** A text is cut in one way only into a prefix that passes a test
    throughout and a rest that is empty or begins with a character that
    fails it. *)
Lemma span_unique (P : ascii → bool) a a' b b' :
  all_chars P a = true → all_chars P a' = true →
  (match b with EmptyString => true | String c _ => negb (P c) end) = true →
  (match b' with EmptyString => true | String c _ => negb (P c) end) = true →
  a +:+ b = a' +:+ b' → a = a' ∧ b = b'.
Proof.
  revert a'. induction a as [|c a IH]; intros [|c' a'] Ha Ha' Hb Hb' Heq.
  - done.
  - change ("" +:+ b) with b in Heq. rewrite append_cons in Heq. subst b.
    simpl in *. apply andb_prop in Ha' as [Hc _]. by rewrite Hc in Hb.
  - change ("" +:+ b') with b' in Heq. rewrite append_cons in Heq. subst b'.
    simpl in *. apply andb_prop in Ha as [Hc _]. by rewrite Hc in Hb'.
  - rewrite !append_cons in Heq. injection Heq as -> Heq.
    simpl in *. apply andb_prop in Ha as [_ Ha]. apply andb_prop in Ha' as [_ Ha'].
    destruct (IH a' Ha Ha' Hb Hb' Heq) as [-> ->]. done.
Qed.

Lemma word_split_unique line runs runs' :
  word_split line runs → word_split line runs' → runs = runs'.
Proof.
  intros Hsplit. revert runs'.
  induction Hsplit as [gap Hgap|gap run rest runs Hgap Hne Hrun Hend Hrest IH];
    intros runs' Hsplit'.
  - inversion Hsplit' as [|gap' run' rest' runs'' Hgap' Hne' Hrun' Hend' Hrest' Heq];
      [done|]. subst.
    rewrite !all_chars_append in Hgap.
    apply andb_prop in Hgap as [_ [Hbad _]%andb_prop].
    destruct run' as [|c run']; [done|]. simpl in *.
    apply andb_prop in Hbad as [Hc _]. apply andb_prop in Hrun' as [Hc' _].
    unfold no_space in Hc'. by rewrite Hc in Hc'.
  - inversion Hsplit' as [gap' Hgap'|gap' run' rest' runs'' Hgap' Hne' Hrun' Hend' Hrest' Heq].
    + subst. rewrite !all_chars_append in Hgap'.
      apply andb_prop in Hgap' as [_ [Hbad _]%andb_prop].
      destruct run as [|c run]; [done|]. simpl in *.
      apply andb_prop in Hbad as [Hc _]. apply andb_prop in Hrun as [Hc' _].
      unfold no_space in Hc'. by rewrite Hc in Hc'.
    + subst.
      destruct (span_unique Py.is_space gap' gap
                  (run' +:+ rest') (run +:+ rest)) as [-> Heq']; [done | done | | | done |].
      { destruct run' as [|c r]; [done|]. rewrite append_cons.
        simpl in Hrun'. by apply andb_prop in Hrun' as [? _]. }
      { destruct run as [|c r]; [done|]. rewrite append_cons.
        simpl in Hrun. by apply andb_prop in Hrun as [? _]. }
      destruct (span_unique no_space run' run rest' rest) as [-> ->];
        [done | done | | | done |].
      { destruct rest' as [|c r]; [done|]. simpl in *. unfold no_space.
        by rewrite Hend'. }
      { destruct rest as [|c r]; [done|]. simpl in *. unfold no_space.
        by rewrite Hend. }
      f_equal. by apply IH.
Qed.

End unique_runs.

(** ** More facts about the counter *)

Section counting.

Lemma total_counter_incr c t : total (Py.counter_incr c t) = total c + 1.
Proof.
  unfold total. induction c as [|[k n] c IH]; [done|].
  cbn [Py.counter_incr]. destruct (String.eqb k t).
  - rewrite !fmap_cons. simpl. lia.
  - rewrite !fmap_cons. cbn [foldr snd]. rewrite IH. lia.
Qed.

Lemma total_foldl acc l :
  total (foldl Py.counter_incr acc l) = total acc + Z.of_nat (length l).
Proof.
  revert acc. induction l as [|x l IH]; intros acc; simpl; [lia|].
  rewrite IH, total_counter_incr. lia.
Qed.

Lemma first_occurrences_elem l x : x ∈ first_occurrences l ↔ x ∈ l.
Proof.
  induction l as [|y l IH]; simpl; [done|].
  rewrite !elem_of_cons, list_elem_of_filter, IH.
  destruct (decide (x = y)); naive_solver.
Qed.

(** The keys of the counter, in the order they were first counted. *)
Lemma foldl_counter_incr_keys acc l :
  (foldl Py.counter_incr acc l).*1
  = acc.*1 ++ filter (λ t, t ∉ acc.*1) (first_occurrences l).
Proof.
  revert acc. induction l as [|x l IH]; intros acc; simpl.
  - by rewrite app_nil_r.
  - rewrite IH, counter_incr_keys. destruct (decide (x ∈ acc.*1)) as [Hin|Hout].
    + rewrite filter_cons_False by naive_solver. f_equal.
      rewrite list_filter_filter. apply list_filter_iff. naive_solver.
    + rewrite filter_cons_True by done.
      rewrite <- (assoc_L (++)). simpl. do 2 f_equal.
      rewrite list_filter_filter. apply list_filter_iff. intros t.
      rewrite not_elem_of_app, list_elem_of_singleton. tauto.
Qed.

Lemma Counter_keys l : (Py.Counter l).*1 = first_occurrences l.
Proof.
  unfold Py.Counter. rewrite foldl_counter_incr_keys. simpl.
  induction (first_occurrences l) as [|x k IH]; [done|].
  rewrite filter_cons_True by set_solver. by rewrite IH.
Qed.

Lemma filter_by_count (f : string → Z) (n : Z) (c : list (string * Z)) :
  Forall (λ p, p.2 = f p.1) c →
  (filter (λ p, p.2 = n) c).*1 = filter (λ t, f t = n) c.*1.
Proof.
  induction 1 as [|[k m] c Hp _ IH]; [done|]. simpl in Hp. subst m.
  rewrite fmap_cons, !filter_cons. simpl.
  destruct (decide (f k = n)); by rewrite ?fmap_cons, IH.
Qed.

End counting.

(** ** Encoding and decoding sequences *)

Section sequences.

Variables (tokens : option tokens_arg) (min_freq : Z)
          (reserved_tokens : option (list string)).

Let vocab := Vocab.__init__ tokens min_freq reserved_tokens.

Lemma init_head : Vocab.idx_to_token vocab !! 0%nat = Some "<unk>".
Proof. subst vocab. by rewrite init_idx_to_token. Qed.

(** What [idx_to_token] holds at the index of a token: the token, or the
    unknown marker. *)
Lemma get_decodes t :
  0 ≤ Vocab.get vocab t
  ∧ Vocab.idx_to_token vocab !! Z.to_nat (Vocab.get vocab t)
    = Some (if decide (t ∈ Vocab.idx_to_token vocab) then t else "<unk>").
Proof.
  pose proof (init_index_ok tokens min_freq reserved_tokens) as Hok.
  fold vocab in Hok. case_decide as Hin.
  - destruct (get_hit vocab Hok t Hin) as (_ & ? & ?). split; [lia | done].
  - rewrite (get_miss vocab Hok t Hin). split; [done | apply init_head].
Qed.

Lemma at_index_get t :
  Vocab.at_index vocab (Index (Vocab.get vocab t))
  = Py.Return (if decide (t ∈ Vocab.idx_to_token vocab) then t else "<unk>").
Proof.
  destruct (get_decodes t) as [Hpos Hat]. simpl.
  rewrite list_getitem_spec. pose proof (lookup_lt_Some _ _ _ Hat).
  rewrite decide_True by lia. by rewrite Hat.
Qed.

Lemma mapM_at_index_get ts :
  Py.mapM (Vocab.at_index vocab) (map (Vocab.__getitem__ vocab) (map Token ts))
  = Py.Return
      (map (λ t, if decide (t ∈ Vocab.idx_to_token vocab) then t else "<unk>") ts).
Proof.
  induction ts as [|t ts IH]; [done|].
  cbn [map Py.mapM Vocab.__getitem__]. rewrite at_index_get. cbn [Py.bind].
  by rewrite IH.
Qed.

(** A list with a list in it is encoded, but the result is not decoded:
    the first inner list met raises [TypeError]. *)
Lemma mapM_at_index_nested (l : list token_or_list) :
  (∃ inner, TokenList inner ∈ l) →
  Py.mapM (Vocab.at_index vocab) (map (Vocab.__getitem__ vocab) l)
  = Py.Raise Py.TypeError.
Proof.
  induction l as [|x l IH]; intros [inner Hin].
  - by apply not_elem_of_nil in Hin.
  - cbn [map Py.mapM]. destruct x as [t|inner'].
    + cbn [Vocab.__getitem__]. rewrite at_index_get. cbn [Py.bind].
      rewrite IH; [done|]. apply elem_of_cons in Hin as [[=]|Hin]. by exists inner.
    + done.
Qed.

End sequences.

(** ** The threshold *)

Section threshold.

Lemma ranked_prefix_mono m m' freqs :
  m ≤ m' → ranked_prefix m' freqs `prefix_of` ranked_prefix m freqs.
Proof.
  intros Hle. induction freqs as [|p rest IH]; simpl; [done|].
  destruct (Z.ltb_spec p.2 m'); [apply prefix_nil|].
  destruct (Z.ltb_spec p.2 m); [lia|]. by apply prefix_cons.
Qed.

Lemma prefix_fmap {A B} (f : A → B) (l1 l2 : list A) :
  l1 `prefix_of` l2 → f <$> l1 `prefix_of` f <$> l2.
Proof. intros [k ->]. rewrite fmap_app. by apply prefix_app_r. Qed.

Lemma prefix_filter {A} (P : A → Prop) `{!∀ x, Decision (P x)} (l1 l2 : list A) :
  l1 `prefix_of` l2 → filter P l1 `prefix_of` filter P l2.
Proof. intros [k ->]. rewrite filter_app. by apply prefix_app_r. Qed.

(** The loop never changes an index it finds in [token_to_idx]. *)
Lemma assign_keeps min_freq freqs i2t t2i t i :
  t2i !! t = Some i → (Vocab.assign min_freq freqs i2t t2i).2 !! t = Some i.
Proof.
  revert i2t t2i. induction freqs as [|[token freq] rest IH];
    intros i2t t2i Hlk; simpl; [done|].
  destruct (freq <? min_freq); [done|].
  destruct (t2i !! token) eqn:Htok; [by apply IH|].
  apply IH. rewrite lookup_insert_ne; [done|]. congruence.
Qed.

(** With counts of 1 or more, a threshold of 1 or less stops nothing. *)
Lemma assign_low_threshold m m' freqs i2t t2i :
  Forall (λ p, 1 ≤ p.2) freqs → m ≤ 1 → m' ≤ 1 →
  Vocab.assign m freqs i2t t2i = Vocab.assign m' freqs i2t t2i.
Proof.
  intros Hall Hm Hm'. revert i2t t2i.
  induction Hall as [|[token freq] rest Hp _ IH]; intros i2t t2i; simpl; [done|].
  simpl in Hp.
  destruct (Z.ltb_spec freq m); [lia|]. destruct (Z.ltb_spec freq m'); [lia|].
  destruct (t2i !! token); apply IH.
Qed.

Lemma token_freqs_positive tokens min_freq reserved_tokens :
  Forall (λ p, 1 ≤ p.2)
         (Vocab._token_freqs (Vocab.__init__ tokens min_freq reserved_tokens)).
Proof.
  pose proof (token_freqs_spec tokens min_freq reserved_tokens)
    as (_ & _ & Hmem & Hval).
  apply Forall_forall. intros [k n] Hin. simpl.
  rewrite (Hval k n Hin). apply frequency_pos, Hmem.
  apply list_elem_of_fmap. by exists (k, n).
Qed.

Lemma token_freqs_fixed tokens m m' r r' :
  Vocab._token_freqs (Vocab.__init__ tokens m r)
  = Vocab._token_freqs (Vocab.__init__ tokens m' r').
Proof. by rewrite !init_token_freqs. Qed.

(** The index of the unknown marker and of a reserved token is the one
    given before the loop. *)
Lemma init_base_lookup tokens min_freq reserved_tokens t :
  t ∈ "<unk>" :: default [] reserved_tokens →
  ∃ i, Vocab.dict_of_enumerate ("<unk>" :: default [] reserved_tokens) !! t = Some i
       ∧ Vocab.token_to_idx (Vocab.__init__ tokens min_freq reserved_tokens) !! t
         = Some i.
Proof.
  intros Hin.
  destruct (proj1 (proj1 (dict_of_enumerate_ok _) t) Hin) as [i Hi].
  exists i. split; [done|]. rewrite init_unfold. simpl. by apply assign_keeps.
Qed.

(** A token entered by the loop is at one position only. *)
Lemma init_position_unique tokens min_freq reserved_tokens t (i j : nat) :
  t ∉ "<unk>" :: default [] reserved_tokens →
  Vocab.idx_to_token (Vocab.__init__ tokens min_freq reserved_tokens) !! i = Some t →
  Vocab.idx_to_token (Vocab.__init__ tokens min_freq reserved_tokens) !! j = Some t →
  i = j.
Proof.
  intros Hout. rewrite init_idx_to_token, ranked_prefix_keys.
  pose proof (token_freqs_spec tokens min_freq reserved_tokens) as (_ & Hnd & _).
  set (base := "<unk>" :: default [] reserved_tokens) in *.
  set (tail := filter _ (filter _ _)).
  assert (NoDup tail) as Htail by (by do 2 apply NoDup_filter).
  intros Hi Hj.
  apply lookup_app_Some in Hi as [Hi|[Hi1 Hi2]];
    [exfalso; by eapply Hout, list_elem_of_lookup_2|].
  apply lookup_app_Some in Hj as [Hj|[Hj1 Hj2]];
    [exfalso; by eapply Hout, list_elem_of_lookup_2|].
  pose proof (NoDup_lookup _ _ _ _ Htail Hi2 Hj2). lia.
Qed.

End threshold.

(** ** The character corpus *)

Section corpus.

Lemma text_char_alphabet c : is_text_char c = true → String c "" ∈ alphabet.
Proof.
  destruct c as [[] [] [] [] [] [] [] []]; vm_compute; intros H;
    first [discriminate H | by repeat (first [apply list_elem_of_here | apply list_elem_of_further])].
Qed.

Lemma spaced_text_chars after_space s :
  spaced is_lower after_space s = true → all_chars is_text_char s = true.
Proof.
  revert after_space. induction s as [|c r IH]; intros p; simpl; [done|].
  unfold is_text_char at 1. destruct (Ascii.eqb c " ").
  - intros [_ Hr]%andb_prop. by rewrite orb_true_r, (IH _ Hr).
  - intros [-> Hr]%andb_prop. by rewrite (IH _ Hr).
Qed.

Lemma list_of_str_alphabet s t :
  all_chars is_text_char s = true → t ∈ Py.list_of_str s → t ∈ alphabet.
Proof.
  induction s as [|c r IH]; simpl; [by intros _ ?%not_elem_of_nil|].
  intros [Hc Hr]%andb_prop [->|Hin]%elem_of_cons.
  - by apply text_char_alphabet.
  - by apply IH.
Qed.

Lemma elem_of_concat {A} (x : A) (ls : list (list A)) :
  x ∈ concat ls ↔ ∃ l, x ∈ l ∧ l ∈ ls.
Proof.
  induction ls as [|l ls IH]; simpl.
  - split; [by intros ?%not_elem_of_nil | by intros (l & _ & ?%not_elem_of_nil)].
  - rewrite elem_of_app, IH. setoid_rewrite elem_of_cons. naive_solver.
Qed.

Lemma text_chars_alphabet raw_lines t : t ∈ text_chars raw_lines → t ∈ alphabet.
Proof.
  unfold text_chars, read_time_machine.
  intros Hin. apply elem_of_concat in Hin as (toks & Ht & Htoks).
  apply list_elem_of_fmap in Htoks as (line & -> & Hline).
  apply list_elem_of_fmap in Hline as (raw & -> & _).
  eapply list_of_str_alphabet; [|exact Ht].
  destruct (normalize_normal raw) as [->|Hs]; [done|].
  by eapply spaced_text_chars.
Qed.

Lemma load_corpus_unfold raw_lines max_tokens :
  let vocab := Vocab.__init__ (Some (Tokens2D (map Py.list_of_str
                 (read_time_machine raw_lines)))) 0 None in
  let full := map (Vocab.get vocab) (text_chars raw_lines) in
  load_corpus_time_machine raw_lines max_tokens
  = Py.Return (if 0 <? max_tokens then take (Z.to_nat max_tokens) full else full,
               vocab).
Proof.
  intros vocab full. unfold load_corpus_time_machine.
  cbn [tokenize String.eqb Ascii.eqb Bool.eqb snd fmap option_fmap option_map].
  fold (text_chars raw_lines). fold vocab. fold full.
  destruct (Z.ltb_spec 0 max_tokens); [|done].
  by rewrite list_slice_to_take.
Qed.

(** Every character token of the data set is in the vocabulary built
    from it, at an index other than the unknown index. *)
Lemma text_char_held raw_lines t :
  let vocab := Vocab.__init__ (Some (Tokens2D (map Py.list_of_str
                 (read_time_machine raw_lines)))) 0 None in
  t ∈ text_chars raw_lines →
  t ∈ Vocab.idx_to_token vocab ∧ 1 ≤ Vocab.get vocab t < Vocab.__len__ vocab.
Proof.
  intros vocab Hin.
  pose proof (init_index_ok (Some (Tokens2D (map Py.list_of_str
                 (read_time_machine raw_lines)))) 0 None) as Hok.
  fold vocab in Hok.
  assert (t ∈ Vocab.idx_to_token vocab) as Hheld.
  { apply elem_of_idx_to_token. right. split; [done|]. apply frequency_nonneg. }
  split; [done|].
  destruct (get_hit vocab Hok t Hheld) as (_ & Hrange & Hat).
  split; [|lia].
  destruct (decide (Vocab.get vocab t = 0)) as [Hz|]; [|lia].
  rewrite Hz in Hat. change (Z.to_nat 0) with 0%nat in Hat.
  subst vocab. rewrite init_head in Hat. injection Hat as <-.
  apply text_chars_alphabet in Hin. exfalso. revert Hin. vm_compute.
  intros Hin. repeat (apply elem_of_cons in Hin as [[=]|Hin]).
  by apply not_elem_of_nil in Hin.
Qed.

End corpus.

(** ** Further properties *)

(** *** Lines and words *)

(** X1: the word tokens of the lines [read_time_machine] returns: one
    token list per raw line, every token a non-empty run of lowercase
    letters, and every line is its tokens joined by single spaces. *)
Theorem word_tokens_of_data_set (raw_lines : list string) :
  ∃ tokens,
    tokenize (read_time_machine raw_lines) "word" = ([], Some tokens)
    ∧ length tokens = length raw_lines
    ∧ Forall (Forall lower_word) tokens
    ∧ map (String.concat " ") tokens = read_time_machine raw_lines.
Proof.
  eexists. split; [reflexivity|]. unfold read_time_machine.
  split_and!.
  - by rewrite !length_map.
  - apply Forall_forall. intros ts (line & -> & Hline)%list_elem_of_fmap.
    apply list_elem_of_fmap in Hline as (raw & -> & _).
    apply split_normal, normalize_normal.
  - rewrite !map_map. apply map_ext. intros raw.
    by apply split_normal, normalize_normal.
Qed.

(** X2: [read_time_machine] normalizes: applied to lines it returned, it
    returns them unchanged. *)
Theorem read_time_machine_idempotent (raw_lines : list string) :
  read_time_machine (read_time_machine raw_lines) = read_time_machine raw_lines.
Proof.
  unfold read_time_machine. rewrite map_map. apply map_ext. intros line.
  apply normalize_fixed, normalize_normal.
Qed.

(** X3: in 'word' mode [tokenize] prints nothing and splits every line
    into its maximal runs without white space, from left to right
    ([word_split]: every token is a non-empty run without white space
    that starts after the white space before it and ends at the end of
    the line or before a white-space character). So no token is empty,
    no token holds a white-space character, the tokens of a line put
    together are the line without its white space, and a line of white
    space only (or an empty line) gives the empty token list. *)
Theorem tokenize_word (lines : list string) :
  ∃ tokens,
    tokenize lines "word" = ([], Some tokens)
    ∧ Forall2 (λ line ts,
        word_split line ts
        ∧ Forall (λ t, t ≠ "" ∧ all_chars no_space t = true) ts
        ∧ String.concat "" ts = without_space line
        ∧ (ts = [] ↔ without_space line = "")) lines tokens.
Proof.
  eexists. split; [reflexivity|].
  apply Forall2_fmap_r, Forall_Forall2_diag, Forall_forall. intros line _.
  destruct (split_from_spec "" line eq_refl) as [Hall Hcat].
  fold (Py.split line) in Hall, Hcat.
  change ("" +:+ without_space line) with (without_space line) in Hcat.
  split_and!; [apply split_word_split | done | done |].
  rewrite <- Hcat. split; [by intros ->|].
  destruct (Py.split line) as [|t ts]; [done|].
  rewrite concat_empty_cons. apply Forall_cons in Hall as [[Hne _] _].
  by destruct t.
Qed.

(** *** Counting and ranking *)

(** X4: [count_corpus] holds one entry per distinct token, in the order
    of the tokens' first occurrences, each with the number of
    occurrences of the token; the counts add up to the number of tokens;
    and a 2D list is counted as its flattening. *)
Theorem count_corpus_counts (tokens : tokens_arg) :
  let corpus := corpus_of (Some tokens) in
  count_corpus tokens
  = map (λ t, (t, frequency t corpus)) (first_occurrences corpus)
  ∧ total (count_corpus tokens) = Z.of_nat (length corpus)
  ∧ count_corpus tokens = count_corpus (Tokens1D corpus).
Proof.
  intros corpus. rewrite !count_corpus_flat. fold corpus. simpl corpus_of.
  destruct (Counter_spec corpus) as (_ & _ & Hval).
  split_and!; [| |done].
  - rewrite <- Counter_keys.
    induction (Py.Counter corpus) as [|[k n] c IH]; [done|].
    rewrite fmap_cons. simpl. f_equal.
    + f_equal. apply Hval. by left.
    + apply IH. intros k' n' Hin. apply Hval. by right.
  - unfold Py.Counter. rewrite total_foldl. unfold total. simpl. lia.
Qed.

(** X5: in [token_freqs], tokens of the same frequency keep the order of
    their first occurrences in the token collection. *)
Theorem token_freqs_ties tokens min_freq reserved_tokens (n : Z) :
  let vocab := Vocab.__init__ tokens min_freq reserved_tokens in
  let corpus := corpus_of tokens in
  (filter (λ p, p.2 = n) (Vocab.token_freqs vocab)).*1
  = filter (λ t, frequency t corpus = n) (first_occurrences corpus).
Proof.
  intros vocab corpus. unfold Vocab.token_freqs. subst vocab.
  rewrite init_token_freqs. fold corpus.
  rewrite sorted_by_count_desc_stable.
  rewrite (filter_by_count (λ t, frequency t corpus)).
  - by rewrite Counter_keys.
  - destruct (Counter_spec corpus) as (_ & _ & Hval).
    apply Forall_forall. intros [k m] Hin. by apply Hval.
Qed.

(** *** Encoding and decoding *)

(** X6: in every constructed vocabulary, decoding the encoding of a token
    never raises and gives the token back if the vocabulary holds it, and
    the unknown marker '<unk>' if not; a list of tokens is treated
    element by element, in order. *)
Theorem decode_encode tokens min_freq reserved_tokens (t : string) (ts : list string) :
  let vocab := Vocab.__init__ tokens min_freq reserved_tokens in
  let known t := if decide (t ∈ Vocab.idx_to_token vocab) then t else "<unk>" in
  Vocab.to_tokens vocab (Vocab.__getitem__ vocab (Token t))
  = Py.Return (Token (known t))
  ∧ Vocab.to_tokens vocab (Vocab.__getitem__ vocab (TokenList (map Token ts)))
    = Py.Return (TokenList (map Token (map known ts))).
Proof.
  intros vocab known. split.
  - cbn [Vocab.__getitem__ Vocab.to_tokens]. subst vocab.
    by rewrite at_index_get.
  - cbn [Vocab.__getitem__ Vocab.to_tokens]. subst vocab.
    by rewrite mapM_at_index_get.
Qed.

(** X7: [__getitem__] encodes a list that has a list among its elements,
    but [to_tokens] does not decode the result: it raises [TypeError]. *)
Theorem decode_nested_raises tokens min_freq reserved_tokens (l : list token_or_list) :
  (∃ inner, TokenList inner ∈ l) →
  let vocab := Vocab.__init__ tokens min_freq reserved_tokens in
  Vocab.to_tokens vocab (Vocab.__getitem__ vocab (TokenList l))
  = Py.Raise Py.TypeError.
Proof.
  intros Hnested vocab. cbn [Vocab.__getitem__ Vocab.to_tokens]. subst vocab.
  by rewrite mapM_at_index_nested.
Qed.

Lemma decode_nested_raises_witness :
  (∃ inner, TokenList inner ∈ [Token "a"; TokenList [Token "b"]])
  ∧ Vocab.to_tokens scenario_vocab
      (Vocab.__getitem__ scenario_vocab (TokenList [Token "a"; TokenList [Token "b"]]))
    = Py.Raise Py.TypeError.
Proof.
  assert (∃ inner, TokenList inner ∈ [Token "a"; TokenList [Token "b"]]) as Hnested.
  { exists [Token "b"]. apply list_elem_of_further, list_elem_of_here. }
  split; [exact Hnested|].
  exact (decode_nested_raises (Some (Tokens1D ["a"; "b"; "a"; "c"; "a"; "b"])) 0 None
           [Token "a"; TokenList [Token "b"]] Hnested).
Defined.

(** X8: a list of indices that all lie in [-len(vocab) .. len(vocab) - 1]
    is decoded without an error into a list of the same length, element
    by element: position [i mod len(vocab)] of [idx_to_token] for index
    [i]. *)
Theorem to_tokens_list (self : Vocab.t) (indices : list Z) :
  let n := Vocab.__len__ self in
  Forall (λ i, - n ≤ i < n) indices →
  ∃ tokens,
    Vocab.to_tokens self (IndexList (map Index indices))
    = Py.Return (TokenList (map Token tokens))
    ∧ Forall2 (λ i t, Vocab.idx_to_token self !! Z.to_nat (i mod n) = Some t)
              indices tokens.
Proof.
  intros n Hall. cbn [Vocab.to_tokens].
  assert (∃ tokens,
    Py.mapM (Vocab.at_index self) (map Index indices) = Py.Return tokens
    ∧ Forall2 (λ i t, Vocab.idx_to_token self !! Z.to_nat (i mod n) = Some t)
              indices tokens) as (tokens & -> & Hts).
  { induction Hall as [|i indices Hi _ (tokens & IH & Hts)].
    - by exists [].
    - destruct (lookup_lt_is_Some_2 (Vocab.idx_to_token self) (Z.to_nat (i mod n)))
        as [t Ht].
      { unfold n, Vocab.__len__ in *.
        pose proof (Z.mod_pos_bound i (Z.of_nat (length (Vocab.idx_to_token self)))).
        lia. }
      exists (t :: tokens). split; [|by constructor].
      cbn [map Py.mapM Vocab.at_index]. rewrite list_getitem_spec.
      fold (Vocab.__len__ self). fold n. rewrite IH.
      destruct (decide (0 ≤ i < n)).
      + rewrite Z.mod_small in Ht by done. by rewrite Ht.
      + rewrite decide_True by lia.
        replace (i mod n) with (i + n) in Ht
          by (apply Z.mod_unique with (-1); lia).
        by rewrite Ht. }
  by eexists.
Qed.

Lemma to_tokens_list_witness :
  Forall (λ i, - Vocab.__len__ scenario_vocab ≤ i < Vocab.__len__ scenario_vocab)
         [1; -1; 0]
  ∧ ∃ tokens,
      Vocab.to_tokens scenario_vocab (IndexList (map Index [1; -1; 0]))
      = Py.Return (TokenList (map Token tokens)).
Proof.
  assert (Forall (λ i, - Vocab.__len__ scenario_vocab ≤ i < Vocab.__len__ scenario_vocab)
                 [1; -1; 0]) as Hall.
  { repeat constructor; vm_compute; congruence. }
  split; [exact Hall|].
  destruct (to_tokens_list scenario_vocab [1; -1; 0] Hall) as (tokens & Heq & _).
  exists tokens. exact Heq.
Defined.

(** *** The threshold and the reserved tokens *)

(** X9: raising [min_freq] only cuts the vocabulary at its end: the
    [idx_to_token] of the higher threshold is a prefix of the one of the
    lower threshold, the vocabulary is no larger, and every token it
    still holds keeps its index. *)
Theorem min_freq_monotone tokens reserved_tokens (min_freq min_freq' : Z) :
  min_freq ≤ min_freq' →
  let vocab := Vocab.__init__ tokens min_freq reserved_tokens in
  let vocab' := Vocab.__init__ tokens min_freq' reserved_tokens in
  Vocab.idx_to_token vocab' `prefix_of` Vocab.idx_to_token vocab
  ∧ Vocab.__len__ vocab' ≤ Vocab.__len__ vocab
  ∧ ∀ t, t ∈ Vocab.idx_to_token vocab' → Vocab.get vocab' t = Vocab.get vocab t.
Proof.
  intros Hle vocab vocab'.
  assert (Vocab.idx_to_token vocab' `prefix_of` Vocab.idx_to_token vocab) as Hpre.
  { subst vocab vocab'. rewrite !init_idx_to_token.
    rewrite (token_freqs_fixed tokens min_freq' min_freq reserved_tokens reserved_tokens).
    by apply prefix_app, prefix_filter, prefix_fmap, ranked_prefix_mono. }
  split_and!; [done | |].
  - apply prefix_length in Hpre. unfold Vocab.__len__. lia.
  - intros t Hin'.
    pose proof (init_index_ok tokens min_freq reserved_tokens) as Hok.
    pose proof (init_index_ok tokens min_freq' reserved_tokens) as Hok'.
    fold vocab in Hok. fold vocab' in Hok'.
    destruct (decide (t ∈ "<unk>" :: default [] reserved_tokens)) as [Hbase|Hnew].
    + destruct (init_base_lookup tokens min_freq reserved_tokens t Hbase)
        as (i & Hi & Hv).
      destruct (init_base_lookup tokens min_freq' reserved_tokens t Hbase)
        as (i' & Hi' & Hv').
      unfold Vocab.get. fold vocab in Hv. fold vocab' in Hv'.
      rewrite Hv, Hv'. simpl. congruence.
    + assert (t ∈ Vocab.idx_to_token vocab) as Hin.
      { destruct Hpre as [k ->]. apply elem_of_app. by left. }
      destruct (get_hit vocab Hok t Hin) as (_ & Hr & Hat).
      destruct (get_hit vocab' Hok' t Hin') as (_ & Hr' & Hat').
      assert (Vocab.idx_to_token vocab !! Z.to_nat (Vocab.get vocab' t) = Some t)
        as Hat''.
      { destruct Hpre as [k ->]. by apply lookup_app_l_Some. }
      pose proof (init_position_unique tokens min_freq reserved_tokens t _ _
                    Hnew Hat Hat''). lia.
Qed.

Lemma min_freq_monotone_witness :
  2 ≤ 3
  ∧ Vocab.idx_to_token
      (Vocab.__init__ (Some (Tokens1D ["a"; "b"; "a"; "c"; "a"; "b"])) 3 None)
    `prefix_of`
    Vocab.idx_to_token
      (Vocab.__init__ (Some (Tokens1D ["a"; "b"; "a"; "c"; "a"; "b"])) 2 None).
Proof.
  assert (2 ≤ 3) as Hle by lia.
  split; [exact Hle|].
  exact (proj1 (min_freq_monotone (Some (Tokens1D ["a"; "b"; "a"; "c"; "a"; "b"]))
                  None 2 3 Hle)).
Defined.

(** X10: a threshold of 1 or less excludes nothing: every such
    [min_freq] gives the same vocabulary. *)
Theorem min_freq_at_most_one tokens reserved_tokens (min_freq min_freq' : Z) :
  min_freq ≤ 1 → min_freq' ≤ 1 →
  Vocab.__init__ tokens min_freq reserved_tokens
  = Vocab.__init__ tokens min_freq' reserved_tokens.
Proof.
  intros Hm Hm'. rewrite !init_unfold. cbv zeta.
  rewrite (assign_low_threshold min_freq min_freq'); [done | | done..].
  rewrite <- (init_token_freqs tokens min_freq reserved_tokens).
  apply token_freqs_positive.
Qed.

Lemma min_freq_at_most_one_witness :
  0 ≤ 1 ∧ 1 ≤ 1
  ∧ Vocab.__init__ (Some (Tokens1D ["a"; "b"; "a"])) 0 None
    = Vocab.__init__ (Some (Tokens1D ["a"; "b"; "a"])) 1 None.
Proof.
  assert (0 ≤ 1) as H0 by lia. assert (1 ≤ 1) as H1 by lia.
  split_and!; [exact H0 | exact H1 |].
  exact (min_freq_at_most_one (Some (Tokens1D ["a"; "b"; "a"])) None 0 1 H0 H1).
Defined.

(** X11: the index of the unknown marker and of every reserved token is
    at most [len(reserved_tokens)] and does not depend on the token
    collection or on [min_freq]. *)
Theorem reserved_index_stable tokens tokens' (min_freq min_freq' : Z)
    reserved_tokens (t : string) :
  t ∈ "<unk>" :: default [] reserved_tokens →
  let vocab := Vocab.__init__ tokens min_freq reserved_tokens in
  let vocab' := Vocab.__init__ tokens' min_freq' reserved_tokens in
  Vocab.get vocab t = Vocab.get vocab' t
  ∧ 0 ≤ Vocab.get vocab t ≤ Z.of_nat (length (default [] reserved_tokens))
  ∧ ("<unk>" :: default [] reserved_tokens) !! Z.to_nat (Vocab.get vocab t) = Some t.
Proof.
  intros Hbase vocab vocab'.
  destruct (init_base_lookup tokens min_freq reserved_tokens t Hbase)
    as (i & Hi & Hv).
  destruct (init_base_lookup tokens' min_freq' reserved_tokens t Hbase)
    as (i' & Hi' & Hv').
  fold vocab in Hv. fold vocab' in Hv'. unfold Vocab.get. rewrite Hv, Hv'. simpl.
  assert (i' = i) as -> by congruence.
  destruct (proj2 (dict_of_enumerate_ok _) t i Hi) as [Hpos Hat].
  split_and!; [done | lia | | done].
  apply lookup_lt_Some in Hat. simpl in Hat. lia.
Qed.

Lemma reserved_index_stable_witness :
  "<pad>" ∈ "<unk>" :: default [] (Some ["<pad>"; "<bos>"])
  ∧ Vocab.get (Vocab.__init__ (Some (Tokens1D ["a"; "b"])) 0 (Some ["<pad>"; "<bos>"]))
              "<pad>"
    = Vocab.get (Vocab.__init__ None 5 (Some ["<pad>"; "<bos>"])) "<pad>".
Proof.
  assert ("<pad>" ∈ "<unk>" :: default [] (Some ["<pad>"; "<bos>"])) as Hbase.
  { simpl. apply list_elem_of_further, list_elem_of_here. }
  split; [exact Hbase|].
  exact (proj1 (reserved_index_stable (Some (Tokens1D ["a"; "b"])) None 0 5
                  (Some ["<pad>"; "<bos>"]) "<pad>" Hbase)).
Defined.

(** *** The character corpus of the data set *)

(** X12: the vocabulary [load_corpus_time_machine] returns has at most
    28 entries, whatever the data set holds: the unknown marker, the 26
    lowercase letters and the space. *)
Theorem load_corpus_vocab_size (raw_lines : list string) (max_tokens : Z) :
  ∃ corpus vocab,
    load_corpus_time_machine raw_lines max_tokens = Py.Return (corpus, vocab)
    ∧ 1 ≤ Vocab.__len__ vocab ≤ 28.
Proof.
  do 2 eexists. split; [apply load_corpus_unfold|].
  unfold Vocab.__len__. rewrite init_idx_to_token, ranked_prefix_keys.
  rewrite length_app. simpl length.
  set (held := filter _ (filter _ _)).
  assert (length held ≤ length alphabet)%nat as Hlen.
  { apply submseteq_length, NoDup_submseteq.
    - pose proof (token_freqs_spec (Some (Tokens2D (map Py.list_of_str
        (read_time_machine raw_lines)))) 0 None) as (_ & Hnd & _).
      by do 2 apply NoDup_filter.
    - intros t [_ [_ Ht]%list_elem_of_filter]%list_elem_of_filter.
      pose proof (token_freqs_spec (Some (Tokens2D (map Py.list_of_str
        (read_time_machine raw_lines)))) 0 None) as (_ & _ & Hmem & _).
      apply Hmem in Ht. by apply (text_chars_alphabet raw_lines). }
  change (length alphabet) with 27%nat in Hlen. lia.
Qed.

(** X13: no character of the data set is unknown to the vocabulary
    built from it: every index of the returned corpus lies in
    [1 .. len(vocab) - 1], and decoding the corpus gives back the
    characters of the normalized lines, all of them or the first
    [max_tokens]. *)
Theorem load_corpus_decodes (raw_lines : list string) (max_tokens : Z) :
  let chars := text_chars raw_lines in
  ∃ corpus vocab,
    load_corpus_time_machine raw_lines max_tokens = Py.Return (corpus, vocab)
    ∧ Forall (λ i, 1 ≤ i < Vocab.__len__ vocab) corpus
    ∧ Vocab.to_tokens vocab (IndexList (map Index corpus))
      = Py.Return (TokenList (map Token
          (if 0 <? max_tokens then take (Z.to_nat max_tokens) chars else chars))).
Proof.
  intros chars. do 2 eexists. split; [apply load_corpus_unfold|].
  set (vocab := Vocab.__init__ _ _ _).
  set (kept := if 0 <? max_tokens then take (Z.to_nat max_tokens) chars else chars).
  assert ((if 0 <? max_tokens
           then take (Z.to_nat max_tokens) (map (Vocab.get vocab) (text_chars raw_lines))
           else map (Vocab.get vocab) (text_chars raw_lines))
          = map (Vocab.get vocab) kept) as ->.
  { subst kept chars. destruct (0 <? max_tokens); [|done].
    symmetry. apply (fmap_take (Vocab.get vocab)). }
  assert (∀ t, t ∈ kept → t ∈ text_chars raw_lines) as Hkept.
  { subst kept chars. intros t. destruct (0 <? max_tokens); [|done].
    apply (subseteq_take (Z.to_nat max_tokens) (text_chars raw_lines)). }
  split.
  - apply Forall_fmap, Forall_forall. intros t Ht%Hkept.
    by apply text_char_held.
  - cbn [Vocab.to_tokens].
    replace (map Index (map (Vocab.get vocab) kept))
      with (map (Vocab.__getitem__ vocab) (map Token kept))
      by (by rewrite !map_map).
    subst vocab. rewrite mapM_at_index_get. cbn [Py.bind]. do 3 f_equal.
    rewrite <- (map_id kept) at 2. apply map_ext_in.
    intros t Ht%list_elem_of_In%Hkept.
    rewrite decide_True; [done|]. by apply text_char_held.
Qed.

(** ** Facts about the tensor operations *)

Section tensors.

Local Open Scope nat_scope.

Lemma divmod_step x y d : y < d → (x * d + y) / d = x ∧ (x * d + y) mod d = y.
Proof.
  intros Hy. split.
  - symmetry. apply (Nat.div_unique _ d x y); lia.
  - symmetry. apply (Nat.mod_unique _ d x y); lia.
Qed.

(** A position of a tensor of shape [(a, c, b, d)], as its four indices. *)
Lemma unravel a b c d p :
  p < a * c * b * d →
  let l := p mod d in
  let j := (p / d) mod b in
  let k := (p / d / b) mod c in
  let i := p / d / b / c in
  p = ((i * c + k) * b + j) * d + l ∧ l < d ∧ j < b ∧ k < c ∧ i < a.
Proof.
  intros Hp l j k i.
  assert (0 < d ∧ 0 < b ∧ 0 < c) as (Hd & Hb & Hc) by nia.
  pose proof (Nat.div_mod_eq p d). pose proof (Nat.mod_upper_bound p d).
  pose proof (Nat.div_mod_eq (p / d) b). pose proof (Nat.mod_upper_bound (p / d) b).
  pose proof (Nat.div_mod_eq (p / d / b) c).
  pose proof (Nat.mod_upper_bound (p / d / b) c).
  subst l j k i. split_and!; [nia | lia | lia | lia |].
  apply Nat.Div0.div_lt_upper_bound. apply Nat.Div0.div_lt_upper_bound.
  apply Nat.Div0.div_lt_upper_bound. nia.
Qed.

Lemma source_0213_ravel b c d i j k l :
  l < d → j < b → k < c →
  Torch.source_0213 b c d (((i * c + k) * b + j) * d + l)
  = ((i * b + j) * c + k) * d + l.
Proof.
  intros Hl Hj Hk. unfold Torch.source_0213.
  destruct (divmod_step ((i * c + k) * b + j) l d Hl) as [-> ->].
  destruct (divmod_step (i * c + k) j b Hj) as [-> ->].
  by destruct (divmod_step i k c Hk) as [-> ->].
Qed.

Lemma ravel_lt a b c d i j k l :
  l < d → k < c → j < b → i < a → ((i * b + j) * c + k) * d + l < a * b * c * d.
Proof.
  intros Hl Hk Hj Hi.
  assert (i * b + j + 1 ≤ a * b) by nia.
  assert ((i * b + j) * c + k + 1 ≤ a * b * c) by nia.
  nia.
Qed.

Lemma source_0213_lt a b c d p :
  p < a * c * b * d → Torch.source_0213 b c d p < a * b * c * d.
Proof.
  intros Hp. destruct (unravel a b c d p Hp) as (Heq & Hl & Hj & Hk & Hi).
  rewrite Heq, source_0213_ravel by done. by apply ravel_lt.
Qed.

Lemma source_0213_inv a b c d p :
  p < a * c * b * d →
  Torch.source_0213 c b d (Torch.source_0213 b c d p) = p.
Proof.
  intros Hp. destruct (unravel a b c d p Hp) as (Heq & Hl & Hj & Hk & Hi).
  rewrite Heq at 1. rewrite !source_0213_ravel by done. by rewrite <- Heq.
Qed.

Lemma gather_0213_length {A} b c d (data : list A) :
  length (Torch.gather_0213 b c d data) = length data.
Proof.
  unfold Torch.gather_0213. destruct data as [|x data]; [done|].
  by rewrite length_map, length_seq.
Qed.

Lemma gather_0213_lookup {A} a b c d (data : list A) p :
  length data = a * b * c * d → p < a * c * b * d →
  Torch.gather_0213 b c d data !! p = data !! Torch.source_0213 b c d p.
Proof.
  intros Hlen Hp. pose proof (source_0213_lt a b c d p Hp) as Hsrc.
  unfold Torch.gather_0213. destruct data as [|x data]; [simpl in *; lia|].
  rewrite list_lookup_fmap, lookup_seq_lt by lia.
  cbn [fmap option_fmap option_map Nat.add]. rewrite nth_lookup.
  destruct (lookup_lt_is_Some_2 (x :: data) (Torch.source_0213 b c d p))
    as [y ->]; [lia | done].
Qed.

Lemma gather_0213_inv {A} a b c d (data : list A) :
  length data = a * b * c * d →
  Torch.gather_0213 c b d (Torch.gather_0213 b c d data) = data.
Proof.
  intros Hlen. apply list_eq. intros p.
  destruct (decide (p < length data)) as [Hp|Hp].
  - rewrite (gather_0213_lookup a c b d) by (rewrite ?gather_0213_length; lia).
    rewrite (gather_0213_lookup a b c d)
      by (done || apply (source_0213_lt a c b d); lia).
    f_equal. apply (source_0213_inv a c b d). lia.
  - rewrite !lookup_ge_None_2; [done | lia |].
    rewrite !gather_0213_length. lia.
Qed.

End tensors.

Section reshaping.

Lemma product_of_nat (l : list nat) :
  foldr Z.mul 1 (map Z.of_nat l) = Z.of_nat (Torch.numel l).
Proof. induction l as [|x l IH]; simpl; [done|]. rewrite IH. lia. Qed.

Lemma product_app (l k : list Z) :
  foldr Z.mul 1 (l ++ k) = foldr Z.mul 1 l * foldr Z.mul 1 k.
Proof. induction l as [|x l IH]; simpl; [lia|]. rewrite IH. lia. Qed.

Lemma filter_inferred_of_nat (l : list nat) :
  filter (λ d, d = -1) (map Z.of_nat l) = [].
Proof. apply filter_none, Forall_fmap, Forall_forall. intros x _. simpl. lia. Qed.

Lemma filter_given_of_nat (l : list nat) :
  filter (λ d, d ≠ -1) (map Z.of_nat l) = map Z.of_nat l.
Proof.
  induction l as [|x l IH]; [done|]. cbn [map].
  rewrite filter_cons_True by lia. by rewrite IH.
Qed.

Lemma map_given_of_nat (q : Z) (l : list nat) :
  map (λ d, Z.to_nat (if d =? -1 then q else d)) (map Z.of_nat l) = l.
Proof.
  induction l as [|x l IH]; [done|]. cbn [map]. rewrite IH.
  destruct (Z.eqb_spec (Z.of_nat x) (-1)); [lia|]. by rewrite Nat2Z.id.
Qed.

Section inferred.

Variables (pre post : list nat).

Let dims : list Z := map Z.of_nat pre ++ [-1] ++ map Z.of_nat post.
Let given : nat := (Torch.numel pre * Torch.numel post)%nat.

Lemma infer_size_unfold n :
  Torch.infer_size dims n =
  if (Z.of_nat n =? Z.of_nat given)
     || ((0 <? Z.of_nat given) && (Z.of_nat n mod Z.of_nat given =? 0))
  then if Z.of_nat given =? 0 then inl Torch.RuntimeError
       else inr (pre ++ [Z.to_nat (Z.of_nat n / Z.of_nat given)] ++ post)
  else inl Torch.RuntimeError.
Proof.
  unfold Torch.infer_size. subst dims given.
  rewrite bool_decide_eq_false_2.
  2:{ intros (x & Hin & Hx)%Exists_exists.
      rewrite !elem_of_app, !list_elem_of_fmap, list_elem_of_singleton in Hin.
      naive_solver lia. }
  rewrite !filter_app, !filter_inferred_of_nat, !filter_given_of_nat.
  rewrite filter_cons_True by done. rewrite filter_cons_False by naive_solver.
  rewrite !filter_nil, app_nil_r.
  rewrite bool_decide_eq_true_2 by set_solver.
  cbn [app length Nat.ltb Nat.leb andb].
  rewrite product_app, !product_of_nat, <- Nat2Z.inj_mul.
  rewrite map_app, map_given_of_nat. cbn [map Z.eqb Pos.eqb].
  by rewrite map_given_of_nat.
Qed.

(** The dimension left open is what the others leave of the elements. *)
Lemma infer_size_inferred q :
  (0 < given)%nat →
  Torch.infer_size dims (given * q) = inr (pre ++ [q] ++ post).
Proof.
  intros Hpos. rewrite infer_size_unfold.
  rewrite Nat2Z.inj_mul, Z.mul_comm, Z.mod_mul, Z.div_mul by lia.
  destruct (Z.ltb_spec 0 (Z.of_nat given)); [|lia].
  rewrite orb_true_r. destruct (Z.eqb_spec (Z.of_nat given) 0); [lia|].
  by rewrite Nat2Z.id.
Qed.

(** No dimension can be inferred when the others do not divide the
    number of elements. *)
Lemma infer_size_indivisible n :
  (0 < given)%nat → (n mod given ≠ 0)%nat →
  Torch.infer_size dims n = inl Torch.RuntimeError.
Proof.
  intros Hpos Hmod. rewrite infer_size_unfold.
  assert (Z.of_nat n mod Z.of_nat given ≠ 0) as Hmod'.
  { rewrite <- Nat2Z.inj_mod. lia. }
  destruct (Z.eqb_spec (Z.of_nat n) (Z.of_nat given)) as [Heq|_].
  { rewrite Heq, Z.mod_same in Hmod' by lia. done. }
  destruct (Z.eqb_spec (Z.of_nat n mod Z.of_nat given) 0); [done|].
  by rewrite andb_false_r.
Qed.

End inferred.

End reshaping.

Section heads.

Context {A : Type}.

Local Open Scope nat_scope.

Lemma reshape_inferred (X : Torch.tensor A) (pre post : list nat) (q : nat) :
  0 < Torch.numel pre * Torch.numel post →
  Torch.numel (Torch.shape X) = Torch.numel pre * Torch.numel post * q →
  Torch.reshape X (map Z.of_nat pre ++ [(-1)%Z] ++ map Z.of_nat post)
  = inr (Torch.mk (pre ++ [q] ++ post) (Torch.data X)).
Proof.
  intros Hpos Hn. unfold Torch.reshape. rewrite Hn.
  by rewrite infer_size_inferred.
Qed.

Lemma reshape_indivisible (X : Torch.tensor A) (pre post : list nat) :
  0 < Torch.numel pre * Torch.numel post →
  Torch.numel (Torch.shape X) mod (Torch.numel pre * Torch.numel post) ≠ 0 →
  Torch.reshape X (map Z.of_nat pre ++ [(-1)%Z] ++ map Z.of_nat post)
  = inl Torch.RuntimeError.
Proof.
  intros Hpos Hn. unfold Torch.reshape. by rewrite infer_size_indivisible.
Qed.

(** What [transpose_qkv] returns for [num_heads] heads of width [d]. *)
Lemma transpose_qkv_value (b n h d : nat) (data : list A) :
  0 < b → 0 < n → 0 < h → 0 < d →
  transpose_qkv (Torch.mk [b; n; h * d] data) (Z.of_nat h)
  = inr (Torch.mk [b * h; n; d] (Torch.gather_0213 n h d data)).
Proof.
  intros Hb Hn Hh Hd. unfold transpose_qkv. cbn [Torch.size Torch.shape lookup
    list_lookup Torch.bind].
  pose proof (reshape_inferred (Torch.mk [b; n; h * d] data) [b; n; h] [] d) as H1.
  cbn [map app] in H1. rewrite H1 by (simpl; nia). clear H1.
  cbn [Torch.bind Torch.permute_0213 Torch.shape Torch.data Torch.size lookup
    list_lookup app].
  pose proof (reshape_inferred
    (Torch.mk [b; h; n; d] (Torch.gather_0213 n h d data)) [] [n; d] (b * h)) as H2.
  cbn [map app] in H2. rewrite H2 by (simpl; nia). done.
Qed.

(** What [transpose_output] returns for the output of the heads. *)
Lemma transpose_output_value (b n h d : nat) (data : list A) :
  0 < b → 0 < n → 0 < h → 0 < d →
  transpose_output (Torch.mk [b * h; n; d] data) (Z.of_nat h)
  = inr (Torch.mk [b; n; h * d] (Torch.gather_0213 h n d data)).
Proof.
  intros Hb Hn Hh Hd. unfold transpose_output. cbn [Torch.size Torch.shape lookup
    list_lookup Torch.bind].
  pose proof (reshape_inferred (Torch.mk [b * h; n; d] data) [] [h; n; d] b) as H1.
  cbn [map app] in H1. rewrite H1 by (simpl; nia). clear H1.
  cbn [Torch.bind Torch.permute_0213 Torch.shape Torch.data Torch.size lookup
    list_lookup app].
  pose proof (reshape_inferred
    (Torch.mk [b; n; h; d] (Torch.gather_0213 h n d data)) [b; n] [] (h * d)) as H2.
  cbn [map app] in H2. rewrite H2 by (simpl; nia). done.
Qed.

(** The heads and their width, from [num_heads] and [num_hiddens]. *)
Lemma heads_of (num_heads : Z) (num_hiddens : nat) :
  (0 < num_heads)%Z → (num_heads | Z.of_nat num_hiddens)%Z →
  ∃ h d, num_heads = Z.of_nat h ∧ num_hiddens = h * d ∧ 0 < h
         ∧ d = num_hiddens / Z.to_nat num_heads ∧ h = Z.to_nat num_heads.
Proof.
  intros Hpos [q Hq].
  exists (Z.to_nat num_heads), (Z.to_nat q).
  assert (0 ≤ q)%Z by nia.
  split_and!; [lia | nia | lia | | done].
  replace num_hiddens with (Z.to_nat q * Z.to_nat num_heads) at 1 by nia.
  rewrite Nat.div_mul; lia.
Qed.

End heads.

(** *** The heads of multi-head attention *)

(** X14: [transpose_output] reverses [transpose_qkv]. For a tensor of
    shape [(b, n, num_hiddens)] with all three sizes positive and
    [num_heads > 0] dividing [num_hiddens], [transpose_qkv] returns a
    tensor of shape [(b * num_heads, n, num_hiddens / num_heads)], and
    [transpose_output] applied to it returns the tensor started from. *)
Theorem transpose_round_trip {A} (X : Torch.tensor A) (b n num_hiddens : nat)
    (num_heads : Z) :
  Torch.shape X = [b; n; num_hiddens] → tensor_ok X →
  (0 < b)%nat → (0 < n)%nat → (0 < num_hiddens)%nat →
  0 < num_heads → (num_heads | Z.of_nat num_hiddens) →
  ∃ Y, transpose_qkv X num_heads = inr Y
       ∧ Torch.shape Y
         = [(b * Z.to_nat num_heads)%nat; n; (num_hiddens / Z.to_nat num_heads)%nat]
       ∧ tensor_ok Y
       ∧ transpose_output Y num_heads = inr X.
Proof.
  destruct X as [shape data]. unfold tensor_ok. simpl.
  intros -> Hok Hb Hn Hhid Hheads Hdiv.
  destruct (heads_of num_heads num_hiddens Hheads Hdiv)
    as (h & d & -> & -> & Hh & Hd & Hh').
  assert (0 < d)%nat as Hd0 by nia.
  rewrite <- Hd, <- Hh'. clear Hd Hh'.
  rewrite transpose_qkv_value by done. eexists. split; [done|]. simpl.
  split_and!; [done | |].
  - rewrite gather_0213_length, Hok. simpl. lia.
  - rewrite transpose_output_value by done.
    rewrite (gather_0213_inv b n h d); [done|]. rewrite Hok. simpl. lia.
Qed.

Lemma transpose_round_trip_witness :
  Torch.shape (Torch.mk [1; 2; 4]%nat [10; 11; 12; 13; 14; 15; 16; 17])
  = [1; 2; 4]%nat
  ∧ 0 < 2 ∧ (2 | Z.of_nat 4)
  ∧ ∃ Y, transpose_qkv (Torch.mk [1; 2; 4]%nat [10; 11; 12; 13; 14; 15; 16; 17]) 2
         = inr Y
         ∧ transpose_output Y 2
           = inr (Torch.mk [1; 2; 4]%nat [10; 11; 12; 13; 14; 15; 16; 17]).
Proof.
  assert (0 < 2) as Hheads by lia.
  assert (2 | Z.of_nat 4) as Hdiv by (exists 2; reflexivity).
  split_and!; [reflexivity | exact Hheads | exact Hdiv |].
  destruct (transpose_round_trip
              (Torch.mk [1; 2; 4]%nat [10; 11; 12; 13; 14; 15; 16; 17])
              1 2 4 2 eq_refl eq_refl) as (Y & HY & _ & _ & Hback);
    [lia | lia | lia | exact Hheads | exact Hdiv |].
  exists Y. split; [exact HY | exact Hback].
Defined.

(** X15: [transpose_qkv] gives every head its own slice of the hidden
    dimension: with [d = num_hiddens / num_heads], row [i * num_heads + k]
    of the result is head [k] of batch entry [i], and its element
    [(j, l)] is element [(i, j, k * d + l)] of the argument. *)
Theorem transpose_qkv_heads {A} (X : Torch.tensor A) (b n num_hiddens : nat)
    (num_heads : Z) (i j k l : nat) :
  Torch.shape X = [b; n; num_hiddens] → tensor_ok X →
  0 < num_heads → (num_heads | Z.of_nat num_hiddens) →
  let h := Z.to_nat num_heads in
  let d := (num_hiddens / h)%nat in
  (i < b)%nat → (j < n)%nat → (k < h)%nat → (l < d)%nat →
  ∃ Y, transpose_qkv X num_heads = inr Y
       ∧ Torch.data Y !! (((i * h + k) * n + j) * d + l)%nat
         = Torch.data X !! ((i * n + j) * num_hiddens + (k * d + l))%nat.
Proof.
  destruct X as [shape data]. unfold tensor_ok. simpl.
  intros -> Hok Hheads Hdiv.
  destruct (heads_of num_heads num_hiddens Hheads Hdiv)
    as (h & d & -> & -> & Hh & Hd & Hh').
  rewrite <- Hd, <- Hh'. clear Hd Hh'. intros Hi Hj Hk Hl.
  rewrite transpose_qkv_value by lia. eexists. split; [done|]. simpl.
  rewrite (gather_0213_lookup b n h d).
  - rewrite source_0213_ravel by done. f_equal. lia.
  - rewrite Hok. simpl. lia.
  - by apply ravel_lt.
Qed.

Lemma transpose_qkv_heads_witness :
  ∃ Y, transpose_qkv (Torch.mk [1; 2; 4]%nat [10; 11; 12; 13; 14; 15; 16; 17]) 2
       = inr Y
       ∧ Torch.data Y !! (((0 * 2 + 1) * 2 + 1) * 2 + 0)%nat
         = Torch.data (Torch.mk [1; 2; 4]%nat [10; 11; 12; 13; 14; 15; 16; 17])
             !! ((0 * 2 + 1) * 4 + (1 * 2 + 0))%nat.
Proof.
  refine (transpose_qkv_heads
            (Torch.mk [1; 2; 4]%nat [10; 11; 12; 13; 14; 15; 16; 17])
            1 2 4 2 0 1 1 0 eq_refl eq_refl _ _ _ _ _ _).
  - lia.
  - exists 2. reflexivity.
  - vm_compute. lia.
  - vm_compute. lia.
  - vm_compute. lia.
  - vm_compute. lia.
Defined.

(** X16: [transpose_qkv] does not round: when [num_heads > 0] does not
    divide [num_hiddens], the first [reshape] raises [RuntimeError]. *)
Theorem transpose_qkv_indivisible {A} (X : Torch.tensor A) (b n num_hiddens : nat)
    (num_heads : Z) :
  Torch.shape X = [b; n; num_hiddens] →
  (0 < b)%nat → (0 < n)%nat → 0 < num_heads →
  ¬ (num_heads | Z.of_nat num_hiddens) →
  transpose_qkv X num_heads = inl Torch.RuntimeError.
Proof.
  destruct X as [shape data]. simpl. intros -> Hb Hn Hheads Hdiv.
  assert (num_heads = Z.of_nat (Z.to_nat num_heads)) as Hh by lia.
  set (h := Z.to_nat num_heads) in *. rewrite Hh.
  unfold transpose_qkv. cbn [Torch.size Torch.shape lookup list_lookup Torch.bind].
  pose proof (reshape_indivisible (Torch.mk [b; n; num_hiddens] data) [b; n; h] [])
    as H1.
  cbn [map app] in H1. rewrite H1; [done | simpl; nia |]. simpl.
  replace (b * (n * (num_hiddens * 1)))%nat with ((b * n) * num_hiddens)%nat by lia.
  replace (b * (n * (h * 1)) * 1)%nat with ((b * n) * h)%nat by lia.
  rewrite Nat.Div0.mul_mod_distr_l. intros Hmod. apply Hdiv.
  assert (num_hiddens mod h = 0)%nat as Hz by nia.
  exists (Z.of_nat (num_hiddens / h)). rewrite Hh.
  pose proof (Nat.div_mod_eq num_hiddens h). nia.
Qed.

Lemma transpose_qkv_indivisible_witness :
  ¬ (3 | Z.of_nat 4)
  ∧ transpose_qkv (Torch.mk [1; 2; 4]%nat [10; 11; 12; 13; 14; 15; 16; 17]) 3
    = inl Torch.RuntimeError.
Proof.
  assert (¬ (3 | Z.of_nat 4)) as Hdiv by (intros [q Hq]; simpl in Hq; lia).
  split; [exact Hdiv|].
  apply (transpose_qkv_indivisible
           (Torch.mk [1; 2; 4]%nat [10; 11; 12; 13; 14; 15; 16; 17]) 1 2 4 3 eq_refl);
    [lia | lia | lia | exact Hdiv].
Defined.
